(** * Anchor-based text patching: [apply-fixes.py] and [update-doc.py]

    A shallow embedding of the two maintenance scripts of the repository and
    of the Python operations they call, followed by the properties of the
    specification.

    - A Python [str] is a list of Unicode code points ([N]); offsets and
      lengths count code points, as [str.find], [len] and slicing do.
    - The file store maps a path to the text that [f.read()] returns for it
      and that [f.write()] replaces: decoding, encoding and newline
      translation happen below this level.
    - A script is a computation over the file store and the console that
      either returns, raises an uncaught exception, or leaves through
      [exit(code)]. *)

From Equations Require Import Equations.
From stdpp Require Import base decidable option numbers list strings gmap.
From Stdlib Require Ascii String.

Local Open Scope Z_scope.

(** ** Python strings *)

(** A code point. *)
Definition char : Type := N.

(** A Python [str]. *)
Definition str : Type := list char.

(** Decoding of the UTF-8 bytes of a source literal: [need] continuation
    bytes are still expected for the code point accumulated in [acc]. *)
Fixpoint utf8 (need : nat) (acc : N) (bs : list N) : str :=
  match bs with
  | [] => []
  | b :: bs' =>
      match need with
      | O =>
          if (b <? 128)%N then b :: utf8 0 0%N bs'
          else if (b <? 224)%N then utf8 1 (b - 192)%N bs'
          else if (b <? 240)%N then utf8 2 (b - 224)%N bs'
          else utf8 3 (b - 240)%N bs'
      | S k =>
          let acc' := (acc * 64 + (b - 128))%N in
          match k with
          | O => acc' :: utf8 0 0%N bs'
          | S _ => utf8 k acc' bs'
          end
      end
  end.

(** The [str] denoted by a literal of the (UTF-8 encoded) source file. *)
Definition py (lit : string) : str :=
  utf8 0 0%N (Ascii.N_of_ascii <$> String.list_ascii_of_string lit).

(** [len(s)] *)
Definition len (s : str) : Z := Z.of_nat (length s).

(** [s.startswith(sub)] *)
Definition startswith (s sub : str) : bool := bool_decide (sub `prefix_of` s).

(** The scan of [str.find]: [i] is the offset of [s] in the whole string. *)
Fixpoint find_from (sub s : str) (i : Z) : Z :=
  if startswith s sub then i
  else match s with
       | [] => -1
       | _ :: s' => find_from sub s' (i + 1)
       end.

(** [s.find(sub)]: the lowest offset at which [sub] occurs in [s], or [-1]. *)
Definition str_find (s sub : str) : Z := find_from sub s 0.

(** A slice bound as Python normalises it against a string of [n]
    characters: negative bounds count from the end, and every bound is
    clamped to [0 .. n]. *)
Definition slice_index (n : nat) (i : Z) : nat :=
  Z.to_nat (if i <? 0 then Z.max (i + Z.of_nat n) 0 else Z.min i (Z.of_nat n)).

(** [s[:j]] *)
Definition slice_to (s : str) (j : Z) : str := take (slice_index (length s) j) s.

(** [s[i:]] *)
Definition slice_from (s : str) (i : Z) : str := drop (slice_index (length s) i) s.

(** [new] before, between and after the characters of [s]: what replacing
    the empty string yields. *)
Definition interleave (new s : str) : str := new ++ (s ≫= λ c, c :: new).

(** The left-to-right scan shared by [str.replace] and [re.sub]: [hit]
    tells whether a match starts at the head of the remaining text, and a
    match is [S width] characters long. A match is replaced by [new] and
    skipped; any other character is copied. *)
Section scan.
Context (hit : str → bool) (width : nat) (new : str).

Equations? scan (s : str) : str by wf (length s) lt :=
  scan [] := [];
  scan (c :: s') with hit (c :: s') := {
    | true := new ++ scan (drop width s');
    | false := c :: scan s' }.
Proof. all: try rewrite length_drop; simpl; lia. Qed.
End scan.

(** [s.replace(old, new)]: every non-overlapping occurrence of [old],
    taken left to right, is replaced by [new]. *)
Definition str_replace (s old new : str) : str :=
  match old with
  | [] => interleave new s
  | _ :: old' => scan (λ t, startswith t old) (length old') new s
  end.

(** ** The fragment of Python's [re] that the patch uses

    Patterns made of literal characters, escaped punctuation and [.]; a
    replacement template without escapes. *)
Module re.

(** One element of a compiled pattern. *)
Inductive atom : Type :=
| Lit (c : char)
| AnyChar.

(** What a call into [re] comes to: a value, [re.error], or a pattern or
    template outside the fragment, about which the model says nothing. *)
Inductive outcome (A : Type) : Type :=
| Ok (a : A)
| PatternError
| Unsupported.
Global Arguments Ok {A} a.
Global Arguments PatternError {A}.
Global Arguments Unsupported {A}.

Definition BACKSLASH : char := 92%N.
Definition NEWLINE : char := 10%N.

(** The characters with a syntactic role that the fragment leaves out:
    [[ ( * + ? { ^ $ |]. *)
Definition SPECIAL_CHARS : str := py "[(*+?{^$|".

(** ASCII letters and digits: after a backslash they start a class, a
    group reference or a character escape. *)
Definition is_alnum (c : char) : bool :=
  ((48 <=? c) && (c <=? 57) || (65 <=? c) && (c <=? 90)
   || (97 <=? c) && (c <=? 122))%N.

(** The parser: a backslash makes the next character a literal unless it
    is alphanumeric, and ends in [re.error] when nothing follows it; an
    unescaped [.] matches any character but a newline; a closing
    parenthesis outside a group is [re.error]. *)
Fixpoint parse (p : str) : outcome (list atom) :=
  match p with
  | [] => Ok []
  | c :: p' =>
      if bool_decide (c = BACKSLASH) then
        match p' with
        | [] => PatternError
        | e :: p'' =>
            if is_alnum e then Unsupported
            else match parse p'' with
                 | Ok atoms => Ok (Lit e :: atoms)
                 | PatternError => PatternError
                 | Unsupported => Unsupported
                 end
        end
      else if bool_decide (c ∈ SPECIAL_CHARS) then Unsupported
      else if bool_decide (c = 41%N) then PatternError
      else match parse p' with
           | Ok atoms =>
               Ok ((if bool_decide (c = 46%N) then AnyChar else Lit c) :: atoms)
           | PatternError => PatternError
           | Unsupported => Unsupported
           end
  end.

(** Whether one character is matched by one atom. *)
Definition atom_matches (a : atom) (c : char) : bool :=
  match a with
  | Lit x => bool_decide (x = c)
  | AnyChar => negb (bool_decide (c = NEWLINE))
  end.

(** Whether the pattern matches at the head of [s]; the match is then the
    first [length atoms] characters of [s]. *)
Fixpoint match_here (atoms : list atom) (s : str) : bool :=
  match atoms, s with
  | [], _ => true
  | _ :: _, [] => false
  | a :: atoms', c :: s' => atom_matches a c && match_here atoms' s'
  end.

(** [pattern.sub(repl, string)] for a compiled pattern and a literal
    replacement: all non-overlapping matches, left to right. The empty
    pattern matches the empty string at every offset. *)
Definition sub_compiled (atoms : list atom) (repl s : str) : str :=
  match atoms with
  | [] => interleave repl s
  | _ :: atoms' => scan (match_here atoms) (length atoms') repl s
  end.

(** The replacement template: literal when it holds no backslash. *)
Definition parse_template (repl : str) : outcome str :=
  if bool_decide (BACKSLASH ∈ repl) then Unsupported else Ok repl.

(** [re.sub(pattern, repl, string)]: the pattern is compiled first, then
    the template. *)
Definition sub (pattern repl string : str) : outcome str :=
  match parse pattern with
  | Ok atoms =>
      match parse_template repl with
      | Ok template => Ok (sub_compiled atoms template string)
      | PatternError => PatternError
      | Unsupported => Unsupported
      end
  | PatternError => PatternError
  | Unsupported => Unsupported
  end.

End re.


(** ** Files, console and scripts *)

(** A file as the scripts see it: the text [f.read()] returns ([None] when
    the bytes are not valid UTF-8) and whether the process may open it for
    reading and for writing. *)
Record file : Type := File {
  text : option str;
  readable : bool;
  writable : bool;
}.

(** The part of the environment a script touches. *)
Record world : Type := World {
  files : gmap string file;
  stdout : list str;
}.

(** The exceptions the calls of the scripts can raise. *)
Inductive exn : Type :=
| FileNotFoundError
| PermissionError
| UnicodeDecodeError
| re_error.

(** How a computation ends: with a value, with an uncaught exception, with
    [exit(code)], or at a call the model does not cover. *)
Inductive result (A : Type) : Type :=
| Ret (a : A)
| Raise (e : exn)
| Exit (code : Z)
| Unmodelled.
Global Arguments Ret {A} a.
Global Arguments Raise {A} e.
Global Arguments Exit {A} code.
Global Arguments Unmodelled {A}.

(** A script fragment producing an [A]. *)
Definition Script (A : Type) : Type := world → result A * world.

Global Instance script_ret : MRet Script := λ A a w, (Ret a, w).

Global Instance script_bind : MBind Script := λ A B k m w,
  match m w with
  | (Ret a, w') => k a w'
  | (Raise e, w') => (Raise e, w')
  | (Exit code, w') => (Exit code, w')
  | (Unmodelled, w') => (Unmodelled, w')
  end.

(** [raise e] *)
Definition raise {A} (e : exn) : Script A := λ w, (Raise e, w).

(** [exit(code)] *)
Definition exit {A} (code : Z) : Script A := λ w, (Exit code, w).

(** [print(line)] *)
Definition print (line : str) : Script unit := λ w,
  (Ret (), {| files := files w; stdout := stdout w ++ [line] |}).

(** [with open(path, 'r', encoding='utf-8') as f: f.read()] *)
Definition read_text (path : string) : Script str := λ w,
  match files w !! path with
  | None => (Raise FileNotFoundError, w)
  | Some f =>
      if readable f then
        match text f with
        | Some content => (Ret content, w)
        | None => (Raise UnicodeDecodeError, w)
        end
      else (Raise PermissionError, w)
  end.

(** [with open(path, 'w', encoding='utf-8') as f: f.write(content)]: the
    file is created when missing and fully overwritten otherwise. *)
Definition write_text (path : string) (content : str) : Script unit := λ w,
  match files w !! path with
  | None =>
      (Ret (), {| files := <[path := File (Some content) true true]> (files w);
                  stdout := stdout w |})
  | Some f =>
      if writable f then
        (Ret (), {| files := <[path := File (Some content) (readable f) true]> (files w);
                    stdout := stdout w |})
      else (Raise PermissionError, w)
  end.

(** A call of [re.sub] inside a script. *)
Definition re_sub (pattern repl string : str) : Script str :=
  match re.sub pattern repl string with
  | re.Ok s => mret s
  | re.PatternError => raise re_error
  | re.Unsupported => λ w, (Unmodelled, w)
  end.

(** A run of a script on a file store, with an empty console. *)
Definition run (main : Script unit) (fs : gmap string file) : result unit * world :=
  main {| files := fs; stdout := [] |}.

(** The exit status of the process: 0 when the script runs to its end, 1
    for an uncaught exception, the argument of [exit] otherwise. *)
Definition exit_status (r : result unit) : option Z :=
  match r with
  | Ret _ => Some 0
  | Raise _ => Some 1
  | Exit code => Some code
  | Unmodelled => None
  end.

(** ** [apply-fixes.py] *)
Module apply_fixes.

Definition FILE_PATH : string := "packages/sql-delegation/src/postgresql-module.ts".

(** Fix #3: the anchor and its replacement. *)
Definition FIX3_OLD : str :=
  py "  /** Required claim in TE-JWT (e.g., legacy_name) */
  requiredClaim?: string;

  /** Token cache configuration */".

Definition FIX3_NEW : str :=
  py "  /** Required claim in TE-JWT (e.g., legacy_name) */
  requiredClaim?: string;

  /** Roles claim path in TE-JWT (default: 'roles') */
  rolesClaim?: string;

  /** Token cache configuration */".

(** Fix #1: the anchor and its replacement. *)
Definition FIX1_OLD : str :=
  py "        // Use claim value as legacy username
        effectiveLegacyUsername = claimValue as string;

        console.log('[PostgreSQLModule] Token exchange successful:', {
          legacyUsername: effectiveLegacyUsername,
          idpName: this.tokenExchangeConfig.idpName,
        });".

Definition FIX1_NEW : str :=
  py "        // Use claim value as legacy username
        effectiveLegacyUsername = claimValue as string;

        // Extract roles from TE-JWT (may be in 'roles', 'user_roles', or other claim)
        const rolesClaimPath = this.tokenExchangeConfig.rolesClaim || 'roles';
        const teRoles = (Array.isArray(teClaims?.[rolesClaimPath])
          ? teClaims[rolesClaimPath]
          : []) as string[];

        console.log('[PostgreSQLModule] Token exchange successful:', {
          legacyUsername: effectiveLegacyUsername,
          roles: teRoles,
          rolesClaimPath,
          idpName: this.tokenExchangeConfig.idpName,
        });".

(** Fix #2: the pattern and its replacement. *)
Definition FIX2_PATTERN : str :=
  py "tokenExchangeUsed: !!this\.tokenExchangeService".

Definition FIX2_REPL : str :=
  py "tokenExchangeUsed: !!this.tokenExchangeConfig".

(** The four lines printed at the end. *)
Definition SUCCESS_0 : str :=
  py "✅ All 3 fixes applied successfully!".

Definition SUCCESS_1 : str :=
  py "   Fix #1: Added role extraction from TE-JWT".

Definition SUCCESS_2 : str :=
  py "   Fix #2: Fixed this.tokenExchangeService → this.tokenExchangeConfig".

Definition SUCCESS_3 : str :=
  py "   Fix #3: Added rolesClaim field to TokenExchangeConfig interface".

(** The body of the script, with the pattern and the replacement of the
    [re.sub] call as parameters. *)
Definition main_with (pattern repl : str) : Script unit :=
  content ← read_text FILE_PATH;
  let content := str_replace content FIX3_OLD FIX3_NEW in
  let content := str_replace content FIX1_OLD FIX1_NEW in
  content ← re_sub pattern repl content;
  write_text FILE_PATH content;;
  print SUCCESS_0;;
  print SUCCESS_1;;
  print SUCCESS_2;;
  print SUCCESS_3.

(** The script. *)
Definition main : Script unit := main_with FIX2_PATTERN FIX2_REPL.

(** The one text the pattern of fix #2 matches: the pattern without the
    backslash of its escaped dot. *)
Definition FIX2_TEXT : str := py "tokenExchangeUsed: !!this.tokenExchangeService".


(** The text handed to [f.write] for the text read, once [re.sub] is
    known to replace the occurrences of [FIX2_TEXT]. *)
Definition patch (content : str) : str :=
  let content := str_replace content FIX3_OLD FIX3_NEW in
  let content := str_replace content FIX1_OLD FIX1_NEW in
  str_replace content FIX2_TEXT FIX2_REPL.

(** The console output of a completed run. *)
Definition BANNER : list str := [SUCCESS_0; SUCCESS_1; SUCCESS_2; SUCCESS_3].

End apply_fixes.

(** ** [update-doc.py] *)
Module update_doc.

Definition FILE_PATH : string := "Docs/Token-Exchange.md".

Definition PHASE_72_DOC : str :=
  py "
### Phase 7.2: Fix Undefined teRoles Variable - COMPLETED (2025-01-06)

**Problem:** Runtime error `ReferenceError: teRoles is not defined` in PostgreSQL module

**Root Cause:** After token exchange completed and `legacy_name` was extracted from TE-JWT (line 369), the code forgot to extract the `roles` claim from the same TE-JWT before using it on lines 419-420.

**Solution:** Extract roles from TE-JWT after extracting legacy username

**Changes Made:**
- [x] Added `rolesClaim?: string` field to `TokenExchangeConfig` interface (line 50-51)
- [x] Added role extraction logic after line 369 (5 lines of code):
  ```typescript
  // Extract roles from TE-JWT (may be in 'roles', 'user_roles', or other claim)
  const rolesClaimPath = this.tokenExchangeConfig.rolesClaim || 'roles';
  const teRoles = (Array.isArray(teClaims?.[rolesClaimPath])
    ? teClaims[rolesClaimPath]
    : []) as string[];
  ```
- [x] Updated console.log to show extracted roles (lines 374-378)
- [x] Fixed incorrect `this.tokenExchangeService` references → `this.tokenExchangeConfig` (lines 456, 473)

**Files Changed:**
- `packages/sql-delegation/src/postgresql-module.ts` - 3 fixes applied (~15 lines changed)

**Design Alignment:**
This fix implements the missing role extraction specified in the design document (Unified OAuth & Token Exchange Implementation plan.md lines 523-527):

```typescript
// CRITICAL: Decode TE-JWT for legacy authorization
const delegationClaims = decodeJWT(delegationToken);

// Extract TE-JWT authorization (NOT requestor JWT!)
const legacyUsername = delegationClaims.legacy_name;      // ✅ Already implemented
const legacyRoles = delegationClaims.roles || [];         // ✅ FIXED in Phase 7.2
const legacyPermissions = delegationClaims.permissions || []; // Can be added later
```

**Build Verification:** ✅ All builds successful after fix
- Core: ✅ (61ms)
- @mcp-oauth/sql-delegation: ✅ (11ms)

**Security Impact:** ✅ POSITIVE - TE-JWT roles now properly extracted and used for SQL authorization

---

".

(** The text searched for: the end of the Phase 7.1 section and the
    heading that follows it. *)
Definition ANCHOR : str :=
  py "**Build Verification:** ✅ All builds successful after fix

---

## Key Decisions".

(** The two literals written back around the block; together they are
    the anchor. *)
Definition ANCHOR_HEAD : str :=
  py "**Build Verification:** ✅ All builds successful after fix

---
".

Definition ANCHOR_TAIL : str :=
  py "
## Key Decisions".

Definition ERROR : str := py "ERROR: Could not find insertion point".

Definition SUCCESS : str :=
  py "SUCCESS: Added Phase 7.2 documentation to Token-Exchange.md".

(** The text written back when the anchor is at [insertion_point]. *)
Definition new_content (content : str) (insertion_point : Z) : str :=
  slice_to content insertion_point ++ ANCHOR_HEAD ++ PHASE_72_DOC
    ++ ANCHOR_TAIL ++ slice_from content (insertion_point + len ANCHOR).

(** The script. *)
Definition main : Script unit :=
  content ← read_text FILE_PATH;
  let insertion_point := str_find content ANCHOR in
  if bool_decide (insertion_point = -1) then
    print ERROR;;
    exit 1
  else
    write_text FILE_PATH (new_content content insertion_point);;
    print SUCCESS.

End update_doc.


(** ** Occurrences *)

(** [sub] occurs somewhere in [s]. *)
Definition occurs (sub s : str) : Prop := ∃ pre post, s = pre ++ sub ++ post.

(** [sub] occurs in [s] at offset [n]. *)
Definition occurs_at (sub s : str) (n : nat) : Prop :=
  (n ≤ length s)%nat ∧ sub `prefix_of` drop n s.

(** The first occurrence of [sub] in [s] is at offset [n]. *)
Definition first_at (sub s : str) (n : nat) : Prop :=
  occurs_at sub s n ∧ ∀ m, (m < n)%nat → ¬ occurs_at sub s m.



(** Offsets at which the scan finds a match. *)
Definition hit_at (hit : str → bool) (s : str) (n : nat) : Prop :=
  (n < length s)%nat ∧ hit (drop n s) = true.

(** [a] and [new] do not overlap: neither occurs in the other, and no end
    of one is a beginning of the other. *)
Definition overlap_free (a new : str) : bool :=
  bool_decide (str_find new a = -1) && bool_decide (str_find a new = -1)
  && forallb (λ k, negb (bool_decide (drop (length a - k) a = take k new))
                   && negb (bool_decide (take k a = drop (length new - k) new)))
       (seq 1 (Nat.min (length a) (length new) - 1)).

(** [sep.join(parts)] *)
Fixpoint join (sep : str) (parts : list str) : str :=
  match parts with
  | [] => []
  | u :: rest =>
      match rest with
      | [] => u
      | _ :: _ => u ++ sep ++ join sep rest
      end
  end.

(** The pattern as a whole matches the text [m]. *)
Definition matches (atoms : list re.atom) (m : str) : Prop :=
  Forall2 (λ a c, re.atom_matches a c = true) atoms m.


(** A file store holding one readable and writable file. *)
Definition single_file (path : string) (content : str) : gmap string file :=
  {[path := File (Some content) true true]}.

(** The file at [path] cannot be read as text: it is missing, closed to
    the process, or not valid UTF-8. *)
Definition unreadable (fs : gmap string file) (path : string) : Prop :=
  match fs !! path with
  | None => True
  | Some f => readable f = false ∨ text f = None
  end.


(** No proper end of [a] is a beginning of [a]: occurrences of [a] do not
    overlap each other. *)
Definition border_free (a : str) : bool :=
  forallb (λ k, negb (bool_decide (take k a = drop (length a - k) a)))
    (seq 1 (length a - 1)).

(** Two replacements that can be made in either order: the anchors do not
    overlap themselves, each other, or the replacement of the other. *)
Definition independent (op1 op2 : str * str) : bool :=
  border_free op1.1 && border_free op2.1
  && overlap_free op1.1 op2.1 && overlap_free op2.1 op1.1
  && overlap_free op1.1 op2.2 && overlap_free op2.1 op1.2.

(** The replacements [ops] made one after the other. *)
Definition apply_ops (ops : list (str * str)) (content : str) : str :=
  foldl (λ s op, str_replace s op.1 op.2) content ops.

(** The three replacements of [apply-fixes.py], in the order of the
    script. *)
Definition ALL_OPS : list (str * str) :=
  [(apply_fixes.FIX3_OLD, apply_fixes.FIX3_NEW);
   (apply_fixes.FIX1_OLD, apply_fixes.FIX1_NEW);
   (apply_fixes.FIX2_TEXT, apply_fixes.FIX2_REPL)].

(** ** Texts for the examples *)

(** Two texts for the examples: one without the anchor, and one that holds
    the anchor once between two lines. *)
Definition NOTES : str := py "# Token Exchange
".

Definition CHANGELOG : str := py "# Token Exchange
" ++ update_doc.ANCHOR ++ py "
- Decision 1
".

(** A text that holds the anchor of fix #1 and the text of fix #2, and not
    the anchor of fix #3. *)
Definition MODULE_TS : str := apply_fixes.FIX1_OLD ++ py "
      tokenExchangeUsed: !!this.tokenExchangeService,
".

(** A text that holds the anchor twice. *)
Definition TWO_ANCHORS : str := CHANGELOG ++ update_doc.ANCHOR.

(** * Properties *)

(** ** Occurrences and [str.find] *)

Lemma startswith_true s sub : startswith s sub = true ↔ sub `prefix_of` s.
Proof. unfold startswith. apply bool_decide_eq_true. Qed.

Lemma startswith_false s sub : startswith s sub = false ↔ ¬ sub `prefix_of` s.
Proof. unfold startswith. apply bool_decide_eq_false. Qed.

Lemma occurs_at_0 sub s : occurs_at sub s 0 ↔ sub `prefix_of` s.
Proof. unfold occurs_at. simpl. split; [tauto | split; [lia | done]]. Qed.

Lemma occurs_at_S sub c s n : occurs_at sub (c :: s) (S n) ↔ occurs_at sub s n.
Proof. unfold occurs_at. simpl. split; intros [? ?]; split; try done; lia. Qed.

Lemma occurs_at_split sub s n :
  occurs_at sub s n ↔ ∃ post, s = take n s ++ sub ++ post ∧ (n ≤ length s)%nat.
Proof.
  unfold occurs_at. split.
  - intros [Hn [post Hpost]]. exists post. split; [|done].
    by rewrite <- Hpost, take_drop.
  - intros [post [Heq Hn]]. split; [done|]. exists post.
    rewrite Heq at 1. rewrite drop_app_length'; [done|].
    rewrite length_take. lia.
Qed.

Lemma occurs_at_app pre sub post : occurs_at sub (pre ++ sub ++ post) (length pre).
Proof.
  split; [rewrite length_app; lia|].
  rewrite drop_app_length. by exists post.
Qed.

Lemma occurs_iff sub s : occurs sub s ↔ ∃ n, occurs_at sub s n.
Proof.
  split.
  - intros (pre & post & ->). exists (length pre). apply occurs_at_app.
  - intros [n Hn]. apply occurs_at_split in Hn as [post [Heq _]].
    by exists (take n s), post.
Qed.

Lemma first_at_unique sub s n m : first_at sub s n → first_at sub s m → n = m.
Proof.
  intros [Hn Hn'] [Hm Hm'].
  destruct (lt_eq_lt_dec n m) as [[Hlt | ->] | Hlt]; [|done|].
  - by destruct (Hm' n Hlt).
  - by destruct (Hn' m Hlt).
Qed.

Lemma find_from_found sub s i r :
  find_from sub s i = r → r ≠ -1 → 0 ≤ i →
  ∃ n, r = i + Z.of_nat n ∧ first_at sub s n.
Proof.
  revert i. induction s as [|c s IH]; intros i; simpl.
  - destruct (startswith [] sub) eqn:Hsw; [|congruence].
    intros <- _ _. exists 0%nat. split; [lia|]. split; [|lia].
    by apply occurs_at_0, startswith_true.
  - destruct (startswith (c :: s) sub) eqn:Hsw.
    + intros <- _ _. exists 0%nat. split; [lia|]. split; [|lia].
      by apply occurs_at_0, startswith_true.
    + intros Hr Hne Hi. destruct (IH (i + 1) Hr Hne) as (n & -> & Hocc & Hmin); [lia|].
      exists (S n). split; [lia|]. split; [by apply occurs_at_S|].
      intros [|m] Hm.
      * rewrite occurs_at_0. by apply startswith_false.
      * rewrite occurs_at_S. apply Hmin. lia.
Qed.

Lemma find_from_absent sub s i : find_from sub s i = -1 → 0 ≤ i → ¬ occurs sub s.
Proof.
  rewrite occurs_iff. revert i. induction s as [|c s IH]; intros i; simpl.
  - destruct (startswith [] sub) eqn:Hsw; [lia|].
    intros _ _ [n [Hn Hp]]. simpl in Hn. assert (n = 0%nat) as -> by lia.
    by apply startswith_false in Hsw.
  - destruct (startswith (c :: s) sub) eqn:Hsw; [lia|].
    intros Hr Hi [[|n] Hn].
    + apply occurs_at_0 in Hn. by apply startswith_false in Hsw.
    + apply occurs_at_S in Hn. eapply IH; [done|lia|eauto].
Qed.

(** [str.find] returns [-1] exactly when the text does not occur. *)
Lemma str_find_absent s sub : str_find s sub = -1 ↔ ¬ occurs sub s.
Proof.
  split.
  - intros H. by eapply find_from_absent.
  - intros Hno. destruct (decide (str_find s sub = -1)) as [|Hne]; [done|].
    destruct (find_from_found sub s 0 _ eq_refl Hne) as (n & _ & [Hocc _]); [lia|].
    destruct Hno. apply occurs_iff. eauto.
Qed.

(** Otherwise it returns the offset of the first occurrence. *)
Lemma str_find_first s sub n : first_at sub s n ↔ str_find s sub = Z.of_nat n.
Proof.
  split.
  - intros Hn. destruct (decide (str_find s sub = -1)) as [Habs|Hne].
    + apply str_find_absent in Habs. destruct Habs. apply occurs_iff.
      exists n. apply Hn.
    + destruct (find_from_found sub s 0 _ eq_refl Hne) as (m & Hm & Hfirst); [lia|].
      rewrite (first_at_unique _ _ _ _ Hn Hfirst). unfold str_find in *. lia.
  - intros Hr.
    destruct (find_from_found sub s 0 _ Hr) as (m & Hm & Hfirst); [lia..|].
    by assert (n = m) as -> by lia.
Qed.

Lemma first_at_exists sub s : occurs sub s → ∃ n, first_at sub s n.
Proof.
  intros Hocc. destruct (decide (str_find s sub = -1)) as [Habs|Hne].
  - by apply str_find_absent in Habs.
  - destruct (find_from_found sub s 0 _ eq_refl Hne) as (n & _ & Hn); [lia|]. eauto.
Qed.

Global Instance occurs_dec sub s : Decision (occurs sub s).
Proof.
  destruct (decide (str_find s sub = -1)) as [Habs|Hne].
  - right. by apply str_find_absent.
  - left. destruct (find_from_found sub s 0 _ eq_refl Hne) as (n & _ & [Hn _]); [lia|].
    apply occurs_iff. eauto.
Defined.

(** ** The scan *)

Section scan_facts.
Context (hit : str → bool) (width : nat) (new : str).

Lemma scan_nil : scan hit width new [] = [].
Proof. by simp scan. Qed.

Lemma scan_hit c s :
  hit (c :: s) = true → scan hit width new (c :: s) = new ++ scan hit width new (drop width s).
Proof. intros H. simp scan. by rewrite H. Qed.

Lemma scan_miss c s :
  hit (c :: s) = false → scan hit width new (c :: s) = c :: scan hit width new s.
Proof. intros H. simp scan. by rewrite H. Qed.

End scan_facts.

Section scan_offsets.
Context (hit : str → bool) (width : nat) (new : str).

Lemma hit_at_0 c s : hit_at hit (c :: s) 0 ↔ hit (c :: s) = true.
Proof. unfold hit_at. simpl. split; [tauto | split; [lia | done]]. Qed.

Lemma hit_at_S c s n : hit_at hit (c :: s) (S n) ↔ hit_at hit s n.
Proof. unfold hit_at. simpl. split; intros [? ?]; split; try done; lia. Qed.

(** Without a match the text is copied. *)
Lemma scan_no_hit s : (∀ n, ¬ hit_at hit s n) → scan hit width new s = s.
Proof.
  induction s as [|c s IH]; intros Hno; [apply scan_nil|].
  rewrite scan_miss.
  - f_equal. apply IH. intros n Hn. apply (Hno (S n)). by apply hit_at_S.
  - destruct (hit (c :: s)) eqn:Hhit; [|done]. destruct (Hno 0%nat). by apply hit_at_0.
Qed.

(** Up to the first match the text is copied; the match is replaced and
    the scan goes on behind it. *)
Lemma scan_first_hit s n :
  hit_at hit s n → (∀ m, (m < n)%nat → ¬ hit_at hit s m) →
  scan hit width new s = take n s ++ new ++ scan hit width new (drop (n + S width) s).
Proof.
  revert s. induction n as [|n IH]; intros s Hn Hmin.
  - destruct s as [|c s]; [destruct Hn as [Hn _]; simpl in Hn; lia|].
    apply hit_at_0 in Hn. by rewrite scan_hit.
  - destruct s as [|c s]; [destruct Hn as [Hn _]; simpl in Hn; lia|].
    rewrite scan_miss.
    + simpl. f_equal. apply IH; [by apply hit_at_S in Hn|].
      intros m Hm Hhit. apply (Hmin (S m)); [lia|]. by apply hit_at_S.
    + destruct (hit (c :: s)) eqn:Hhit; [|done].
      destruct (Hmin 0%nat); [lia|]. by apply hit_at_0.
Qed.

End scan_offsets.

Lemma scan_ext hit hit' width new s :
  (∀ t, hit t = hit' t) → scan hit width new s = scan hit' width new s.
Proof.
  intros Hext. induction s as [s IH] using (induction_ltof1 _ (@length char)).
  unfold ltof in IH. destruct s as [|c s]; [by rewrite !scan_nil|].
  destruct (hit (c :: s)) eqn:Hhit.
  - rewrite scan_hit by done. rewrite (scan_hit hit') by (by rewrite <- Hext).
    f_equal. apply IH. rewrite length_drop. simpl. lia.
  - rewrite scan_miss by done. rewrite (scan_miss hit') by (by rewrite <- Hext).
    f_equal. apply IH. simpl. lia.
Qed.

(** ** [str.replace] *)

Lemma hit_at_startswith old s n :
  old ≠ [] → hit_at (λ t, startswith t old) s n ↔ occurs_at old s n.
Proof.
  intros Hold. unfold hit_at, occurs_at. rewrite startswith_true. split.
  - intros [Hn Hp]. split; [lia | done].
  - intros [Hn Hp]. split; [|done].
    destruct (decide (n = length s)) as [->|]; [|lia].
    rewrite drop_all in Hp. apply prefix_nil_inv in Hp. done.
Qed.

(** Replacing a text that does not occur changes nothing. *)
Lemma str_replace_absent s old new : ¬ occurs old s → str_replace s old new = s.
Proof.
  intros Hno. destruct old as [|a old'].
  - destruct Hno. by exists [], s.
  - simpl. apply scan_no_hit. intros n Hn.
    apply hit_at_startswith in Hn; [|done]. apply Hno, occurs_iff. eauto.
Qed.

(** The first occurrence is replaced, and the replacement goes on in the
    text behind it. *)
Lemma str_replace_first s old new n :
  old ≠ [] → first_at old s n →
  str_replace s old new =
    take n s ++ new ++ str_replace (drop (n + length old) s) old new.
Proof.
  intros Hold [Hn Hmin]. destruct old as [|a old']; [done|]. simpl.
  rewrite (scan_first_hit _ _ _ s n).
  - done.
  - by apply hit_at_startswith.
  - intros m Hm Hhit. apply (Hmin m Hm). by apply hit_at_startswith in Hhit.
Qed.

(** ** Slices at offsets inside the text *)

Lemma slice_to_nat s n : (n ≤ length s)%nat → slice_to s (Z.of_nat n) = take n s.
Proof.
  intros Hn. unfold slice_to, slice_index.
  destruct (Z.ltb_spec (Z.of_nat n) 0); [lia|]. f_equal. lia.
Qed.

Lemma slice_from_nat s n : (n ≤ length s)%nat → slice_from s (Z.of_nat n) = drop n s.
Proof.
  intros Hn. unfold slice_from, slice_index.
  destruct (Z.ltb_spec (Z.of_nat n) 0); [lia|]. f_equal. lia.
Qed.

Lemma occurs_at_length sub s n : occurs_at sub s n → (n + length sub ≤ length s)%nat.
Proof.
  intros [Hn Hp]. apply prefix_length in Hp. rewrite length_drop in Hp. lia.
Qed.

Lemma occurs_at_decompose sub s n :
  occurs_at sub s n → s = take n s ++ sub ++ drop (n + length sub) s.
Proof.
  intros Hocc. pose proof (occurs_at_length _ _ _ Hocc) as Hlen.
  destruct Hocc as [Hn [post Hpost]].
  rewrite <- (take_drop n s) at 1. f_equal.
  rewrite <- drop_drop, Hpost. by rewrite drop_app_length.
Qed.

(** ** Runs of [update-doc.py] *)

Section update_doc_runs.
Import update_doc.
Context (fs : gmap string file) (f : file) (content : str).
Hypothesis Hfile : fs !! FILE_PATH = Some f.
Hypothesis Hreadable : readable f = true.
Hypothesis Htext : text f = Some content.

Lemma update_doc_read : read_text FILE_PATH (World fs []) = (Ret content, World fs []).
Proof. unfold read_text. simpl. by rewrite Hfile, Hreadable, Htext. Qed.

Lemma update_doc_run_absent :
  ¬ occurs ANCHOR content → run main fs = (Exit 1, World fs [ERROR]).
Proof.
  intros Habs. apply str_find_absent in Habs.
  unfold run, main, mbind, script_bind. rewrite update_doc_read.
  rewrite Habs. reflexivity.
Qed.

Lemma new_content_at n :
  occurs_at ANCHOR content n →
  new_content content (Z.of_nat n) =
    take n content ++ ANCHOR_HEAD ++ PHASE_72_DOC ++ ANCHOR_TAIL
      ++ drop (n + length ANCHOR) content.
Proof.
  intros Hocc. pose proof (occurs_at_length _ _ _ Hocc) as Hlen.
  unfold new_content, len. rewrite slice_to_nat by lia.
  rewrite <- Nat2Z.inj_add. by rewrite slice_from_nat.
Qed.

Lemma update_doc_run_found n :
  first_at ANCHOR content n → writable f = true →
  run main fs =
    (Ret (), World (<[FILE_PATH := File (Some (new_content content (Z.of_nat n))) true true]> fs)
                   [SUCCESS]).
Proof.
  intros Hfirst Hw. apply str_find_first in Hfirst.
  unfold run, main, mbind, script_bind. rewrite update_doc_read.
  rewrite Hfirst. rewrite bool_decide_eq_false_2 by lia.
  unfold write_text. simpl. rewrite Hfile, Hw, Hreadable. reflexivity.
Qed.

Lemma update_doc_run_readonly n :
  first_at ANCHOR content n → writable f = false →
  run main fs = (Raise PermissionError, World fs []).
Proof.
  intros Hfirst Hw. apply str_find_first in Hfirst.
  unfold run, main, mbind, script_bind. rewrite update_doc_read.
  rewrite Hfirst. rewrite bool_decide_eq_false_2 by lia.
  unfold write_text. simpl. rewrite Hfile, Hw. reflexivity.
Qed.

End update_doc_runs.

(** ** Literal patterns *)

Lemma match_here_literal old t : re.match_here (re.Lit <$> old) t = startswith t old.
Proof.
  revert t. induction old as [|a old IH]; intros t; [done|].
  destruct t as [|c t]; [done|]. simpl. rewrite IH. unfold startswith.
  destruct (decide (a = c)) as [->|Hne].
  - rewrite bool_decide_eq_true_2 by done. simpl. apply bool_decide_ext. split.
    + apply prefix_cons.
    + apply prefix_cons_inv_2.
  - rewrite bool_decide_eq_false_2 by done. simpl. symmetry.
    apply bool_decide_eq_false_2. intros Hp. by apply prefix_cons_inv_1 in Hp.
Qed.

(** A pattern of literals is replaced as [str.replace] replaces its text. *)
Lemma sub_compiled_literal old repl s :
  re.sub_compiled (re.Lit <$> old) repl s = str_replace s old repl.
Proof.
  destruct old as [|a old]; [done|]. simpl. rewrite length_fmap.
  apply scan_ext. intros t. apply (match_here_literal (a :: old)).
Qed.

(** ** Runs of [apply-fixes.py] *)

Lemma fix2_parse : re.parse apply_fixes.FIX2_PATTERN = re.Ok (re.Lit <$> apply_fixes.FIX2_TEXT).
Proof. vm_compute. reflexivity. Qed.

Lemma fix2_template : re.parse_template apply_fixes.FIX2_REPL = re.Ok apply_fixes.FIX2_REPL.
Proof. vm_compute. reflexivity. Qed.

Lemma fix2_sub s :
  re.sub apply_fixes.FIX2_PATTERN apply_fixes.FIX2_REPL s
  = re.Ok (str_replace s apply_fixes.FIX2_TEXT apply_fixes.FIX2_REPL).
Proof.
  unfold re.sub. rewrite fix2_parse, fix2_template. by rewrite sub_compiled_literal.
Qed.

Section apply_fixes_runs.
Import apply_fixes.
Context (fs : gmap string file).

Lemma apply_fixes_missing pattern repl :
  fs !! FILE_PATH = None →
  run (main_with pattern repl) fs = (Raise FileNotFoundError, World fs []).
Proof.
  intros Hfile. unfold run, main_with, mbind, script_bind, read_text. simpl.
  by rewrite Hfile.
Qed.

Lemma apply_fixes_unreadable pattern repl f :
  fs !! FILE_PATH = Some f → readable f = false →
  run (main_with pattern repl) fs = (Raise PermissionError, World fs []).
Proof.
  intros Hfile Hr. unfold run, main_with, mbind, script_bind, read_text. simpl.
  by rewrite Hfile, Hr.
Qed.

Lemma apply_fixes_undecodable pattern repl f :
  fs !! FILE_PATH = Some f → readable f = true → text f = None →
  run (main_with pattern repl) fs = (Raise UnicodeDecodeError, World fs []).
Proof.
  intros Hfile Hr Ht. unfold run, main_with, mbind, script_bind, read_text. simpl.
  by rewrite Hfile, Hr, Ht.
Qed.

Context (f : file) (content : str).
Hypothesis Hfile : fs !! FILE_PATH = Some f.
Hypothesis Hreadable : readable f = true.
Hypothesis Htext : text f = Some content.

Lemma apply_fixes_read : read_text FILE_PATH (World fs []) = (Ret content, World fs []).
Proof. unfold read_text. simpl. by rewrite Hfile, Hreadable, Htext. Qed.

(** The text on which [re.sub] is called. *)
Let replaced : str :=
  str_replace (str_replace content FIX3_OLD FIX3_NEW) FIX1_OLD FIX1_NEW.

Lemma apply_fixes_pattern_error pattern repl :
  re.sub pattern repl replaced = re.PatternError →
  run (main_with pattern repl) fs = (Raise re_error, World fs []).
Proof.
  intros Hsub. unfold run, main_with, mbind, script_bind. rewrite apply_fixes_read.
  unfold re_sub. fold replaced. by rewrite Hsub.
Qed.

Lemma apply_fixes_unsupported pattern repl :
  re.sub pattern repl replaced = re.Unsupported →
  run (main_with pattern repl) fs = (Unmodelled, World fs []).
Proof.
  intros Hsub. unfold run, main_with, mbind, script_bind. rewrite apply_fixes_read.
  unfold re_sub. fold replaced. by rewrite Hsub.
Qed.

Lemma apply_fixes_readonly pattern repl out :
  re.sub pattern repl replaced = re.Ok out → writable f = false →
  run (main_with pattern repl) fs = (Raise PermissionError, World fs []).
Proof.
  intros Hsub Hw. unfold run, main_with, mbind, script_bind. rewrite apply_fixes_read.
  unfold re_sub. fold replaced. rewrite Hsub. unfold write_text. simpl.
  by rewrite Hfile, Hw.
Qed.

Lemma apply_fixes_written pattern repl out :
  re.sub pattern repl replaced = re.Ok out → writable f = true →
  run (main_with pattern repl) fs =
    (Ret (), World (<[FILE_PATH := File (Some out) true true]> fs) BANNER).
Proof.
  intros Hsub Hw. unfold run, main_with, mbind, script_bind. rewrite apply_fixes_read.
  unfold re_sub. fold replaced. rewrite Hsub. unfold write_text. simpl.
  by rewrite Hfile, Hw, Hreadable.
Qed.

Lemma apply_fixes_run :
  writable f = true →
  run main fs =
    (Ret (), World (<[FILE_PATH := File (Some (patch content)) true true]> fs) BANNER).
Proof. intros Hw. apply apply_fixes_written; [apply fix2_sub | done]. Qed.

End apply_fixes_runs.

(** ** Occurrences around an inserted text *)

Lemma overlap_free_spec a new :
  overlap_free a new = true →
  ¬ occurs a new ∧ ¬ occurs new a
  ∧ (∀ l l' m, a = l ++ l' → new = l' ++ m → l ≠ [] → l' ≠ [] → m ≠ [] → False)
  ∧ (∀ l l' m, new = l ++ l' → a = l' ++ m → l ≠ [] → l' ≠ [] → m ≠ [] → False).
Proof.
  unfold overlap_free. rewrite !andb_true_iff, !bool_decide_eq_true, forallb_forall.
  intros [[Ha Hnew] Hk].
  assert (∀ k, (0 < k < Nat.min (length a) (length new))%nat →
    drop (length a - k) a ≠ take k new ∧ take k a ≠ drop (length new - k) new) as Hk'.
  { intros k Hlt. specialize (Hk k). rewrite in_seq in Hk.
    apply andb_true_iff in Hk as [H1 H2]; [|lia].
    apply negb_true_iff, bool_decide_eq_false in H1.
    apply negb_true_iff, bool_decide_eq_false in H2. done. }
  split; [by apply str_find_absent|]. split; [by apply str_find_absent|]. split.
  - intros l l' m -> -> Hl Hl' Hm.
    destruct (Hk' (length l')) as [Hne _].
    { rewrite !length_app. destruct l, l', m; simpl in *; try done; lia. }
    apply Hne. rewrite length_app.
    replace (length l + length l' - length l')%nat with (length l) by lia.
    by rewrite drop_app_length, take_app_length.
  - intros l l' m -> -> Hl Hl' Hm.
    destruct (Hk' (length l')) as [_ Hne].
    { rewrite !length_app. destruct l, l', m; simpl in *; try done; lia. }
    apply Hne. rewrite length_app.
    replace (length l + length l' - length l')%nat with (length l) by lia.
    by rewrite drop_app_length, take_app_length.
Qed.

(** An occurrence of [a] in a text into which [new] was put lies wholly
    before or wholly behind [new]. *)
Lemma occurs_around a new u v :
  overlap_free a new = true → occurs a (u ++ new ++ v) → occurs a u ∨ occurs a v.
Proof.
  intros (Hi & Hii & Hiii & Hiv)%overlap_free_spec (x & y & Heq).
  symmetry in Heq. apply app_eq_app in Heq as [l [[-> Heq] | [-> Heq]]].
  - (* the occurrence starts at or behind the start of [new] *)
    apply app_eq_app in Heq as [l' [[-> Heq] | [-> ->]]].
    + apply app_eq_app in Heq as [m [[-> ->] | [-> ->]]].
      * destruct l' as [|c l']; [right; by exists [], y|].
        destruct m as [|e m]; [destruct Hi; exists l, []; by rewrite !app_nil_r|].
        destruct l as [|d l]; [destruct Hii; by exists [], (e :: m)|].
        destruct (Hiv (d :: l) (c :: l') (e :: m)); done.
      * destruct Hi. by exists l, m.
    + right. by exists l', y.
  - (* the occurrence starts inside [u] *)
    apply app_eq_app in Heq as [l' [[-> Heq] | [-> ->]]].
    + apply app_eq_app in Heq as [m [[-> ->] | [-> ->]]].
      * destruct l' as [|c l']; [left; exists x, []; by rewrite !app_nil_r|].
        destruct l as [|d l]; [destruct Hi; by exists [], m|].
        destruct m as [|e m]; [destruct Hii; exists (d :: l), []; by rewrite !app_nil_r|].
        destruct (Hiii (d :: l) (c :: l') (e :: m)); done.
      * destruct Hii. by exists l, m.
    + left. by exists x, l'.
Qed.

Lemma occurs_app_l a u v : occurs a u → occurs a (u ++ v).
Proof. intros (x & y & ->). exists x, (y ++ v). by rewrite <- !app_assoc. Qed.

Lemma occurs_app_r a u v : occurs a v → occurs a (u ++ v).
Proof. intros (x & y & ->). exists (u ++ x), y. by rewrite <- !app_assoc. Qed.

Lemma occurs_take a s n : occurs a (take n s) → occurs a s.
Proof. intros H. rewrite <- (take_drop n s). by apply occurs_app_l. Qed.

Lemma occurs_drop a s n : occurs a (drop n s) → occurs a s.
Proof. intros H. rewrite <- (take_drop n s). by apply occurs_app_r. Qed.

Lemma overlap_free_nonempty a new : overlap_free a new = true → a ≠ [] ∧ new ≠ [].
Proof.
  intros (Hi & Hii & _)%overlap_free_spec.
  split; intros ->; [destruct Hi; by exists [], new | destruct Hii; by exists [], a].
Qed.

(** Before its first occurrence the text does not occur. *)
Lemma first_at_take old s n : old ≠ [] → first_at old s n → ¬ occurs old (take n s).
Proof.
  intros Hold [Hn Hmin] [m Hm]%occurs_iff.
  pose proof (occurs_at_length _ _ _ Hm) as Hlen. rewrite length_take in Hlen.
  assert (0 < length old)%nat by (destruct old; [done | simpl; lia]).
  apply (Hmin m); [lia|]. destruct Hm as [_ [post Hpost]].
  split; [lia|]. exists (post ++ drop n s).
  rewrite app_assoc, <- Hpost, <- drop_app_le by (rewrite length_take; lia).
  by rewrite take_drop.
Qed.

(** [str.replace] leaves no occurrence of [old] when the replacement does
    not overlap it. *)
Lemma str_replace_consumes old new s :
  overlap_free old new = true → ¬ occurs old (str_replace s old new).
Proof.
  intros Hfree. destruct (overlap_free_nonempty _ _ Hfree) as [Hold _].
  induction s as [s IH] using (induction_ltof1 _ (@length char)). unfold ltof in IH.
  destruct (decide (occurs old s)) as [Hocc|Hno].
  - destruct (first_at_exists _ _ Hocc) as [n Hn].
    rewrite (str_replace_first _ _ _ n) by done.
    intros [Hl|Hr]%occurs_around; [|clear Hocc|done].
    + by apply (first_at_take old s n).
    + revert Hr. apply IH. rewrite length_drop.
      destruct Hn as [Hn%occurs_at_length _]. destruct old; [done | simpl in *; lia].
  - by rewrite str_replace_absent.
Qed.

(** [str.replace] creates no occurrence of a text that the replacement
    does not overlap. *)
Lemma str_replace_keeps_absent a old new s :
  old ≠ [] → overlap_free a new = true →
  ¬ occurs a s → ¬ occurs a (str_replace s old new).
Proof.
  intros Hold Hfree.
  induction s as [s IH] using (induction_ltof1 _ (@length char)). unfold ltof in IH.
  intros Habs. destruct (decide (occurs old s)) as [Hocc|Hno].
  - destruct (first_at_exists _ _ Hocc) as [n Hn].
    rewrite (str_replace_first _ _ _ n) by done.
    intros [Hl|Hr]%occurs_around; [| |done].
    + by apply Habs, (occurs_take _ _ n).
    + revert Hr. apply IH.
      * rewrite length_drop.
        destruct Hn as [Hn%occurs_at_length _]. destruct old; [done | simpl in *; lia].
      * intros H. by apply Habs, (occurs_drop _ _ (n + length old)).
  - by rewrite str_replace_absent.
Qed.

(** ** Every occurrence is replaced *)

Lemma join_cons sep u rest : rest ≠ [] → join sep (u :: rest) = u ++ sep ++ join sep rest.
Proof. by destruct rest. Qed.

Lemma interleave_cons new c s : interleave new (c :: s) = new ++ c :: interleave new s.
Proof. done. Qed.

(** Replacing the empty string puts [new] around every character. *)
Lemma interleave_join new s : interleave new s = join new ([] :: ((λ c, [c]) <$> s) ++ [[]]).
Proof.
  induction s as [|c s IH]; [unfold interleave; simpl; by rewrite app_nil_r|].
  rewrite interleave_cons, IH. simpl. by destruct s.
Qed.

Lemma occurs_at_drop sub s k n :
  occurs_at sub s (k + n) → occurs_at sub (drop k s) n.
Proof.
  intros [Hn Hp]. split; [rewrite length_drop; lia|].
  by rewrite drop_drop.
Qed.

(** The text is cut at the occurrences that [str.replace] replaces: the
    pieces between them hold no occurrence, and one replacement stands
    between any two pieces. *)
Lemma str_replace_pieces old new s :
  old ≠ [] →
  ∃ pieces,
    pieces ≠ [] ∧ s = join old pieces ∧ str_replace s old new = join new pieces
    ∧ Forall (λ u, ¬ occurs old u) pieces
    ∧ (occurs old s → (2 ≤ length pieces)%nat)
    ∧ (∀ i j, occurs_at old s i → occurs_at old s j →
              (i + length old ≤ j)%nat → (3 ≤ length pieces)%nat).
Proof.
  intros Hold.
  induction s as [s IH] using (induction_ltof1 _ (@length char)). unfold ltof in IH.
  destruct (decide (occurs old s)) as [Hocc|Hno].
  - destruct (first_at_exists _ _ Hocc) as [n Hn].
    pose proof (occurs_at_length _ _ _ (proj1 Hn)) as Hlen.
    assert (0 < length old)%nat by (destruct old; [done | simpl; lia]).
    destruct (IH (drop (n + length old) s)) as (us & Hne & Hjoin & Hrepl & Hfree & Hone & _).
    { rewrite length_drop. lia. }
    exists (take n s :: us). repeat split.
    + done.
    + rewrite join_cons, <- Hjoin by done. by apply occurs_at_decompose, Hn.
    + rewrite join_cons, <- Hrepl by done. by apply str_replace_first.
    + constructor; [by apply first_at_take | done].
    + intros _. destruct us; [done | simpl; lia].
    + intros i j Hi Hj Hij.
      assert (n ≤ i)%nat.
      { destruct (decide (n ≤ i)%nat); [done|]. destruct (proj2 Hn i); [lia | done]. }
      assert (2 ≤ length us)%nat; [|simpl; lia].
      apply Hone, occurs_iff. exists (j - (n + length old))%nat.
      apply occurs_at_drop. by replace (n + length old + (j - (n + length old)))%nat with j by lia.
  - exists [s]. repeat split.
    + done.
    + by rewrite str_replace_absent.
    + by constructor.
    + done.
    + intros i j Hi. destruct Hno. apply occurs_iff. eauto.
Qed.

(** ** All non-overlapping matches, left to right *)

Section scan_replaced_all.
Context (matching : str → Prop) (hit : str → bool) (width : nat) (new : str).
Hypothesis hit_matching : ∀ t, hit t = true ↔ ∃ m, matching m ∧ m `prefix_of` t.
Hypothesis matching_length : ∀ m, matching m → length m = S width.



End scan_replaced_all.

Lemma match_here_matches atoms t :
  re.match_here atoms t = true ↔ ∃ m, matches atoms m ∧ m `prefix_of` t.
Proof.
  revert t. induction atoms as [|a atoms IH]; intros t; simpl.
  - split; [|done]. intros _. exists []. split; [constructor | apply prefix_nil].
  - destruct t as [|c t].
    + split; [done|]. intros (m & Hm & Hp). apply prefix_nil_inv in Hp as ->. inversion Hm.
    + rewrite andb_true_iff, IH. split.
      * intros [Ha (m & Hm & Hp)]. exists (c :: m).
        split; [by constructor | by apply prefix_cons].
      * intros (m & Hm & Hp). inversion Hm as [|? c' ? m' Ha Hm']; subst.
        pose proof (prefix_cons_inv_1 _ _ _ _ Hp) as ->.
        split; [done|]. exists m'. split; [done | by eapply prefix_cons_inv_2].
Qed.


(** * The claims of the specification *)

(** ** The insertion of [update-doc.py] *)

(** C2. When the anchor of the insertion does not occur in the text of the
    file, the run of [update-doc.py] prints the error line and leaves with
    exit status 1, and nothing is written: the file store after the run is
    the file store before it. *)
Theorem missing_anchor_aborts_without_write fs f content :
  fs !! update_doc.FILE_PATH = Some f → readable f = true → text f = Some content →
  ¬ occurs update_doc.ANCHOR content →
  run update_doc.main fs = (Exit 1, World fs [update_doc.ERROR])
  ∧ exit_status (run update_doc.main fs).1 = Some 1.
Proof.
  intros Hfile Hr Ht Habs.
  rewrite (update_doc_run_absent fs f content) by done. done.
Qed.

Lemma missing_anchor_aborts_witness :
  run update_doc.main (single_file update_doc.FILE_PATH NOTES)
  = (Exit 1, World (single_file update_doc.FILE_PATH NOTES) [update_doc.ERROR])
  ∧ exit_status (run update_doc.main (single_file update_doc.FILE_PATH NOTES)).1 = Some 1.
Proof.
  apply (missing_anchor_aborts_without_write _ (File (Some NOTES) true true) NOTES).
  - reflexivity.
  - reflexivity.
  - reflexivity.
  - apply str_find_absent. vm_compute. reflexivity.
Defined.

Lemma occurs_at_inv sub s n :
  occurs_at sub s n → ∃ pre post, s = pre ++ sub ++ post ∧ length pre = n.
Proof.
  intros Hocc. exists (take n s), (drop (n + length sub) s).
  split; [by apply occurs_at_decompose|]. rewrite length_take. destruct Hocc. lia.
Qed.


Lemma drop_two (pre mid post : str) :
  drop (length pre + length mid) (pre ++ mid ++ post) = post.
Proof. rewrite app_assoc. apply drop_app_length'. by rewrite length_app. Qed.





(** C3, as the code has it. When the anchor occurs in the text of the
    file, first at offset [n], the block is put inside that occurrence: the
    text written is the text before the anchor, the first part of the
    anchor, the block, the last part of the anchor, and the text behind
    the anchor. The block begins where the first part of the anchor ends,
    which is 17 characters before the end of the anchor, and the text
    around the anchor is neither repeated nor moved. *)
Theorem insertion_inside_anchor fs f content n :
  fs !! update_doc.FILE_PATH = Some f → readable f = true → writable f = true →
  text f = Some content → first_at update_doc.ANCHOR content n →
  ∃ out,
    run update_doc.main fs
    = (Ret (), World (<[update_doc.FILE_PATH := File (Some out) true true]> fs)
                     [update_doc.SUCCESS])
    ∧ out = take n content ++ update_doc.ANCHOR_HEAD ++ update_doc.PHASE_72_DOC
              ++ update_doc.ANCHOR_TAIL ++ drop (n + length update_doc.ANCHOR) content
    ∧ take (length update_doc.PHASE_72_DOC) (drop (n + length update_doc.ANCHOR_HEAD) out)
      = update_doc.PHASE_72_DOC
    ∧ (n + length update_doc.ANCHOR_HEAD + 17 = n + length update_doc.ANCHOR)%nat.
Proof.
  intros Hfile Hr Hw Ht Hn.
  exists (update_doc.new_content content (Z.of_nat n)).
  split; [by apply (update_doc_run_found fs f content)|].
  split; [by apply new_content_at, Hn|].
  split.
  2: { assert (length update_doc.ANCHOR_HEAD + 17 = length update_doc.ANCHOR)%nat
         by (vm_compute; reflexivity). lia. }
  rewrite new_content_at by apply Hn.
  destruct (occurs_at_inv _ _ _ (proj1 Hn)) as (pre & post & Hc & Hl).
  clear Hn Ht. subst content n.
  rewrite take_app_length, (drop_two pre update_doc.ANCHOR post).
  rewrite (drop_two pre update_doc.ANCHOR_HEAD).
  apply take_app_length.
Qed.

Lemma insertion_inside_anchor_witness :
  ∃ out,
    run update_doc.main (single_file update_doc.FILE_PATH CHANGELOG)
    = (Ret (), World (<[update_doc.FILE_PATH := File (Some out) true true]>
                        (single_file update_doc.FILE_PATH CHANGELOG))
                     [update_doc.SUCCESS])
    ∧ out = take 17 CHANGELOG ++ update_doc.ANCHOR_HEAD ++ update_doc.PHASE_72_DOC
              ++ update_doc.ANCHOR_TAIL ++ drop (17 + length update_doc.ANCHOR) CHANGELOG
    ∧ take (length update_doc.PHASE_72_DOC) (drop (17 + length update_doc.ANCHOR_HEAD) out)
      = update_doc.PHASE_72_DOC
    ∧ (17 + length update_doc.ANCHOR_HEAD + 17 = 17 + length update_doc.ANCHOR)%nat.
Proof.
  apply (insertion_inside_anchor _ (File (Some CHANGELOG) true true) CHANGELOG 17).
  - reflexivity.
  - reflexivity.
  - reflexivity.
  - reflexivity.
  - apply str_find_first. vm_compute. reflexivity.
Defined.

(** C3, as the specification words it, fails on the text [CHANGELOG]: the
    anchor is found at offset 17 and ends at offset 97, but what the text
    written holds from offset 97 on is not the block; the block stands at
    offset 80, inside the anchor. *)
Lemma block_not_behind_anchor :
  first_at update_doc.ANCHOR CHANGELOG 17
  ∧ (17 + length update_doc.ANCHOR = 97)%nat
  ∧ ∃ out,
      files (run update_doc.main (single_file update_doc.FILE_PATH CHANGELOG)).2
        !! update_doc.FILE_PATH = Some (File (Some out) true true)
      ∧ take (length update_doc.PHASE_72_DOC) (drop 97 out) ≠ update_doc.PHASE_72_DOC
      ∧ take (length update_doc.PHASE_72_DOC) (drop 80 out) = update_doc.PHASE_72_DOC.
Proof.
  split; [apply str_find_first; vm_compute; reflexivity|].
  split; [vm_compute; reflexivity|].
  eexists. split; [vm_compute; reflexivity|].
  split.
  - apply (bool_decide_eq_false_1 _). vm_compute. reflexivity.
  - vm_compute. reflexivity.
Qed.

(** ** The literal replacements of [apply-fixes.py] *)













(** ** Every occurrence *)

Lemma join_empty_sep parts : join [] parts = concat parts.
Proof.
  induction parts as [|u parts IH]; [done|].
  destruct parts as [|v parts]; [simpl; by rewrite app_nil_r|].
  rewrite join_cons by done. simpl in *. by rewrite IH.
Qed.

Lemma concat_singletons (s : str) : concat ([] :: ((λ c, [c]) <$> s) ++ [[]]) = s.
Proof.
  change (concat (((λ c, [c]) <$> s) ++ [[]]) = s).
  induction s as [|c s IH]; [done|]. cbn. f_equal. exact IH.
Qed.

(** C9. For every text and every anchor, the text is the pieces between
    the occurrences that are replaced, joined by the anchor, and the output
    is the same pieces joined by the replacement. For a non-empty anchor no
    piece holds an occurrence, so none is left out, and two occurrences
    that do not overlap give at least three pieces: at least two
    replacements, not only the first. *)
Theorem literal_replaces_every_occurrence content anchor replacement :
  ∃ pieces,
    content = join anchor pieces
    ∧ str_replace content anchor replacement = join replacement pieces
    ∧ (anchor ≠ [] →
       Forall (λ u, ¬ occurs anchor u) pieces
       ∧ ∀ i j, occurs_at anchor content i → occurs_at anchor content j →
                (i + length anchor ≤ j)%nat → (3 ≤ length pieces)%nat).
Proof.
  destruct anchor as [|a anchor].
  - exists ([] :: ((λ c, [c]) <$> content) ++ [[]]).
    split; [by rewrite join_empty_sep, concat_singletons|].
    split; [apply interleave_join | done].
  - destruct (str_replace_pieces (a :: anchor) replacement content)
      as (pieces & _ & Hjoin & Hrepl & Hfree & _ & Htwo); [done|].
    exists pieces. eauto.
Qed.

Lemma literal_replaces_every_witness :
  ∃ pieces,
    py "a.b.c" = join (py ".") pieces
    ∧ str_replace (py "a.b.c") (py ".") (py "->") = join (py "->") pieces
    ∧ (py "." ≠ [] →
       Forall (λ u, ¬ occurs (py ".") u) pieces
       ∧ ∀ i j, occurs_at (py ".") (py "a.b.c") i → occurs_at (py ".") (py "a.b.c") j →
                (i + length (py ".") ≤ j)%nat → (3 ≤ length pieces)%nat).
Proof. apply (literal_replaces_every_occurrence (py "a.b.c") (py ".") (py "->")). Defined.

(** ** The regular expression *)



(** ** All or nothing *)

Lemma read_text_unreadable fs path :
  unreadable fs path → ∃ e, read_text path (World fs []) = (Raise e, World fs []).
Proof.
  unfold unreadable, read_text. simpl. destruct (fs !! path) as [f|]; [|eauto].
  destruct (readable f); [|eauto]. intros [?| ->]; [done | eauto].
Qed.

Lemma read_text_readable fs path :
  ¬ unreadable fs path →
  ∃ f content, fs !! path = Some f ∧ readable f = true ∧ text f = Some content.
Proof.
  unfold unreadable. destruct (fs !! path) as [f|]; [|tauto].
  destruct (readable f) eqn:Hr, (text f) as [content|] eqn:Ht; try tauto.
  intros _. eauto.
Qed.

Global Instance unreadable_dec fs path : Decision (unreadable fs path).
Proof. unfold unreadable. destruct (fs !! path); apply _. Defined.

Lemma update_doc_unreadable fs :
  unreadable fs update_doc.FILE_PATH →
  ∃ e, run update_doc.main fs = (Raise e, World fs []).
Proof.
  intros [e He]%read_text_unreadable. exists e.
  unfold run, update_doc.main, mbind, script_bind. by rewrite He.
Qed.

Lemma apply_fixes_unreadable_file fs pattern repl :
  unreadable fs apply_fixes.FILE_PATH →
  ∃ e, run (apply_fixes.main_with pattern repl) fs = (Raise e, World fs []).
Proof.
  intros [e He]%read_text_unreadable. exists e.
  unfold run, apply_fixes.main_with, mbind, script_bind. by rewrite He.
Qed.

(** C4. A run of either script writes the whole result or nothing. When it
    does not reach its end the file store is the one it started from; when
    it does, the file holds the text read with every operation applied.
    A file that cannot be read, and a pattern that does not compile, end
    the run with an exception before anything is written. *)
Theorem runs_write_all_or_nothing fs :
  ((∃ r, r ≠ Ret () ∧ ∃ out, run update_doc.main fs = (r, World fs out))
   ∨ ∃ f content n,
       fs !! update_doc.FILE_PATH = Some f ∧ text f = Some content
       ∧ first_at update_doc.ANCHOR content n
       ∧ run update_doc.main fs
         = (Ret (),
            World (<[update_doc.FILE_PATH :=
                       File (Some (update_doc.new_content content (Z.of_nat n))) true true]> fs)
                  [update_doc.SUCCESS]))
  ∧ (∀ pattern repl,
       (∃ r, r ≠ Ret () ∧ ∃ out, run (apply_fixes.main_with pattern repl) fs = (r, World fs out))
       ∨ ∃ f content patched,
           fs !! apply_fixes.FILE_PATH = Some f ∧ text f = Some content
           ∧ re.sub pattern repl
               (str_replace
                  (str_replace content apply_fixes.FIX3_OLD apply_fixes.FIX3_NEW)
                  apply_fixes.FIX1_OLD apply_fixes.FIX1_NEW) = re.Ok patched
           ∧ run (apply_fixes.main_with pattern repl) fs
             = (Ret (),
                World (<[apply_fixes.FILE_PATH := File (Some patched) true true]> fs)
                      apply_fixes.BANNER))
  ∧ (unreadable fs update_doc.FILE_PATH →
     ∃ e, run update_doc.main fs = (Raise e, World fs []))
  ∧ (∀ pattern repl,
       unreadable fs apply_fixes.FILE_PATH →
       ∃ e, run (apply_fixes.main_with pattern repl) fs = (Raise e, World fs []))
  ∧ (∀ pattern repl,
       ¬ unreadable fs apply_fixes.FILE_PATH → re.parse pattern = re.PatternError →
       run (apply_fixes.main_with pattern repl) fs = (Raise re_error, World fs [])).
Proof.
  split; [|split; [|split; [|split]]].
  - destruct (decide (unreadable fs update_doc.FILE_PATH)) as [Hu|Hr].
    { left. destruct (update_doc_unreadable fs Hu) as [e He]. exists (Raise e). eauto. }
    apply read_text_readable in Hr as (f & content & Hfile & Hr & Ht).
    destruct (decide (occurs update_doc.ANCHOR content)) as [[n Hn]%first_at_exists|Habs].
    + destruct (writable f) eqn:Hw.
      * right. exists f, content, n. eauto using update_doc_run_found.
      * left. exists (Raise PermissionError). split; [done|]. exists [].
        by apply (update_doc_run_readonly fs f content Hfile Hr Ht n).
    + left. exists (Exit 1). split; [done|]. exists [update_doc.ERROR].
      by apply (update_doc_run_absent fs f content).
  - intros pattern repl.
    destruct (decide (unreadable fs apply_fixes.FILE_PATH)) as [Hu|Hr].
    { left. destruct (apply_fixes_unreadable_file fs pattern repl Hu) as [e He].
      exists (Raise e). eauto. }
    apply read_text_readable in Hr as (f & content & Hfile & Hr & Ht).
    destruct (re.sub pattern repl
                (str_replace
                   (str_replace content apply_fixes.FIX3_OLD apply_fixes.FIX3_NEW)
                   apply_fixes.FIX1_OLD apply_fixes.FIX1_NEW)) as [patched| |] eqn:Hsub.
    + destruct (writable f) eqn:Hw.
      * right. exists f, content, patched. eauto using apply_fixes_written.
      * left. exists (Raise PermissionError). split; [done|]. exists [].
        by apply (apply_fixes_readonly fs f content Hfile Hr Ht pattern repl patched).
    + left. exists (Raise re_error). split; [done|]. exists [].
      by apply (apply_fixes_pattern_error fs f content).
    + left. exists Unmodelled. split; [done|]. exists [].
      by apply (apply_fixes_unsupported fs f content).
  - apply update_doc_unreadable.
  - intros pattern repl. apply apply_fixes_unreadable_file.
  - intros pattern repl (f & content & Hfile & Hr & Ht)%read_text_readable Hparse.
    apply (apply_fixes_pattern_error fs f content Hfile Hr Ht).
    unfold re.sub. by rewrite Hparse.
Qed.

Lemma runs_write_nothing_witness :
  (∃ e, run update_doc.main ∅ = (Raise e, World ∅ []))
  ∧ (∃ e, run (apply_fixes.main_with apply_fixes.FIX2_PATTERN apply_fixes.FIX2_REPL) ∅
          = (Raise e, World ∅ []))
  ∧ run (apply_fixes.main_with [re.BACKSLASH] apply_fixes.FIX2_REPL)
        (single_file apply_fixes.FILE_PATH MODULE_TS)
    = (Raise re_error, World (single_file apply_fixes.FILE_PATH MODULE_TS) []).
Proof.
  split; [|split].
  - apply (proj1 (proj2 (proj2 (runs_write_all_or_nothing ∅)))). exact I.
  - apply (proj1 (proj2 (proj2 (proj2 (runs_write_all_or_nothing ∅))))). exact I.
  - apply (proj2 (proj2 (proj2 (proj2 (runs_write_all_or_nothing
             (single_file apply_fixes.FILE_PATH MODULE_TS)))))).
    + vm_compute. intros [H|H]; discriminate H.
    + reflexivity.
Defined.

(** ** Running a script again *)


(** None of the three texts that [apply-fixes.py] looks for is left in
    what it writes. *)
Lemma patch_consumes content :
  ¬ occurs apply_fixes.FIX3_OLD (apply_fixes.patch content)
  ∧ ¬ occurs apply_fixes.FIX1_OLD (apply_fixes.patch content)
  ∧ ¬ occurs apply_fixes.FIX2_TEXT (apply_fixes.patch content).
Proof.
  assert (overlap_free apply_fixes.FIX3_OLD apply_fixes.FIX3_NEW = true) as H33
    by (vm_compute; reflexivity).
  assert (overlap_free apply_fixes.FIX1_OLD apply_fixes.FIX1_NEW = true) as H11
    by (vm_compute; reflexivity).
  assert (overlap_free apply_fixes.FIX2_TEXT apply_fixes.FIX2_REPL = true) as H22
    by (vm_compute; reflexivity).
  assert (overlap_free apply_fixes.FIX3_OLD apply_fixes.FIX1_NEW = true) as H31
    by (vm_compute; reflexivity).
  assert (overlap_free apply_fixes.FIX3_OLD apply_fixes.FIX2_REPL = true) as H32
    by (vm_compute; reflexivity).
  assert (overlap_free apply_fixes.FIX1_OLD apply_fixes.FIX2_REPL = true) as H12
    by (vm_compute; reflexivity).
  destruct (overlap_free_nonempty _ _ H11) as [Hne1 _].
  destruct (overlap_free_nonempty _ _ H22) as [Hne2 _].
  unfold apply_fixes.patch. split; [|split].
  - apply str_replace_keeps_absent; [exact Hne2 | exact H32 |].
    apply str_replace_keeps_absent; [exact Hne1 | exact H31 |].
    apply str_replace_consumes. exact H33.
  - apply str_replace_keeps_absent; [exact Hne2 | exact H12 |].
    apply str_replace_consumes. exact H11.
  - apply str_replace_consumes. exact H22.
Qed.


Lemma anchor_overlap_free :
  overlap_free update_doc.ANCHOR
    (update_doc.ANCHOR_HEAD ++ update_doc.PHASE_72_DOC ++ update_doc.ANCHOR_TAIL) = true.
Proof. vm_compute. reflexivity. Qed.


Lemma app_regroup (u a b c v : str) : u ++ a ++ b ++ c ++ v = u ++ (a ++ b ++ c) ++ v.
Proof. by rewrite <- !app_assoc. Qed.





(** * Further properties of the scripts *)

(** ** The ways a run can end *)

(** A run of [update-doc.py] ends in one of four ways, told apart by the
    file and the anchor. *)
Lemma update_doc_outcome fs :
  (unreadable fs update_doc.FILE_PATH
   ∧ ∃ e, run update_doc.main fs = (Raise e, World fs []))
  ∨ (∃ f content,
       fs !! update_doc.FILE_PATH = Some f ∧ readable f = true ∧ text f = Some content
       ∧ ((¬ occurs update_doc.ANCHOR content
           ∧ run update_doc.main fs = (Exit 1, World fs [update_doc.ERROR]))
          ∨ (∃ n, first_at update_doc.ANCHOR content n ∧ writable f = false
                  ∧ run update_doc.main fs = (Raise PermissionError, World fs []))
          ∨ (∃ n, first_at update_doc.ANCHOR content n ∧ writable f = true
                  ∧ run update_doc.main fs
                    = (Ret (),
                       World (<[update_doc.FILE_PATH :=
                                  File (Some (update_doc.new_content content (Z.of_nat n)))
                                       true true]> fs)
                             [update_doc.SUCCESS])))).
Proof.
  destruct (decide (unreadable fs update_doc.FILE_PATH)) as [Hu|Hr].
  { left. split; [done|]. by apply update_doc_unreadable. }
  right. apply read_text_readable in Hr as (f & content & Hfile & Hr & Ht).
  exists f, content. repeat split; try done.
  destruct (decide (occurs update_doc.ANCHOR content)) as [[n Hn]%first_at_exists|Habs].
  - destruct (writable f) eqn:Hw.
    + right. right. exists n. eauto using update_doc_run_found.
    + right. left. exists n. eauto using update_doc_run_readonly.
  - left. split; [done|]. by apply (update_doc_run_absent fs f content).
Qed.

(** A run of [apply-fixes.py] ends in one of three ways, told apart by the
    file alone. *)
Lemma apply_fixes_outcome fs :
  (unreadable fs apply_fixes.FILE_PATH
   ∧ ∃ e, e ≠ re_error ∧ run apply_fixes.main fs = (Raise e, World fs []))
  ∨ (∃ f content,
       fs !! apply_fixes.FILE_PATH = Some f ∧ readable f = true ∧ text f = Some content
       ∧ ((writable f = false
           ∧ run apply_fixes.main fs = (Raise PermissionError, World fs []))
          ∨ (writable f = true
             ∧ run apply_fixes.main fs
               = (Ret (),
                  World (<[apply_fixes.FILE_PATH :=
                             File (Some (apply_fixes.patch content)) true true]> fs)
                        apply_fixes.BANNER)))).
Proof.
  destruct (decide (unreadable fs apply_fixes.FILE_PATH)) as [Hu|Hr].
  { left. split; [done|]. unfold unreadable in Hu.
    destruct (fs !! apply_fixes.FILE_PATH) as [f|] eqn:Hfile.
    - destruct (readable f) eqn:Hr.
      + destruct Hu as [?|Ht]; [done|]. exists UnicodeDecodeError. split; [done|].
        by apply (apply_fixes_undecodable fs _ _ f).
      + exists PermissionError. split; [done|]. by apply (apply_fixes_unreadable fs _ _ f).
    - exists FileNotFoundError. split; [done|]. by apply apply_fixes_missing. }
  right. apply read_text_readable in Hr as (f & content & Hfile & Hr & Ht).
  exists f, content. repeat split; try done.
  destruct (writable f) eqn:Hw.
  - right. split; [done|]. by apply (apply_fixes_run fs f content).
  - left. split; [done|].
    apply (apply_fixes_readonly fs f content Hfile Hr Ht _ _ _ (fix2_sub _) Hw).
Qed.

(** ** What a run leaves alone *)

(** X1. Neither script touches a file other than its own, and neither creates
    or deletes a file: after a run the same paths exist, and every other
    path holds the file it held. *)
Theorem runs_touch_one_file fs :
  (dom (files (run update_doc.main fs).2) = dom fs
   ∧ ∀ path, path ≠ update_doc.FILE_PATH →
             files (run update_doc.main fs).2 !! path = fs !! path)
  ∧ (dom (files (run apply_fixes.main fs).2) = dom fs
     ∧ ∀ path, path ≠ apply_fixes.FILE_PATH →
               files (run apply_fixes.main fs).2 !! path = fs !! path).
Proof.
  split.
  - destruct (update_doc_outcome fs)
      as [[_ [e ->]] | (f & content & Hfile & _ & _ &
                        [[_ ->] | [(n & _ & _ & ->) | (n & _ & _ & ->)]])];
      cbn [fst snd files stdout exit_status]; try done.
    split; [|intros path Hne; by rewrite lookup_insert_ne].
    rewrite dom_insert_L. apply elem_of_dom_2 in Hfile.
    by apply subseteq_union_1_L, singleton_subseteq_l.
  - destruct (apply_fixes_outcome fs)
      as [[_ (e & _ & ->)] | (f & content & Hfile & _ & _ & [[_ ->] | [_ ->]])];
      cbn [fst snd files stdout exit_status]; try done.
    split; [|intros path Hne; by rewrite lookup_insert_ne].
    rewrite dom_insert_L. apply elem_of_dom_2 in Hfile.
    by apply subseteq_union_1_L, singleton_subseteq_l.
Qed.

Lemma singleton_eq_inv {A} (x y : A) : [x] = [y] → x = y.
Proof. by intros [= ->]. Qed.

Lemma error_is_not_success : update_doc.ERROR ≠ update_doc.SUCCESS.
Proof. apply (bool_decide_eq_false_1 _). vm_compute. reflexivity. Qed.

Lemma block_in_new_content content n :
  occurs_at update_doc.ANCHOR content n →
  occurs update_doc.PHASE_72_DOC (update_doc.new_content content (Z.of_nat n)).
Proof.
  intros Hn. rewrite new_content_at by done.
  exists (take n content ++ update_doc.ANCHOR_HEAD),
         (update_doc.ANCHOR_TAIL ++ drop (n + length update_doc.ANCHOR) content).
  by rewrite <- app_assoc.
Qed.

(** ** Exit status and console of [update-doc.py] *)

(** X2. For every file store the exit status is 0 or 1; it is 0 exactly when
    the success line is printed; the success line is printed only once the
    file holds a text with the block in it; and without the success line
    the file store is untouched. *)
Theorem update_doc_success_iff_written fs :
  (exit_status (run update_doc.main fs).1 = Some 0
   ∨ exit_status (run update_doc.main fs).1 = Some 1)
  ∧ (exit_status (run update_doc.main fs).1 = Some 0
     ↔ stdout (run update_doc.main fs).2 = [update_doc.SUCCESS])
  ∧ (stdout (run update_doc.main fs).2 = [update_doc.SUCCESS] →
     ∃ out, files (run update_doc.main fs).2 !! update_doc.FILE_PATH
            = Some (File (Some out) true true)
            ∧ occurs update_doc.PHASE_72_DOC out)
  ∧ (stdout (run update_doc.main fs).2 ≠ [update_doc.SUCCESS] →
     files (run update_doc.main fs).2 = fs).
Proof.
  assert (∀ l, l = [update_doc.SUCCESS] → l ≠ [update_doc.ERROR]) as Hne.
  { intros l -> H%singleton_eq_inv. exact (error_is_not_success (eq_sym H)). }
  destruct (update_doc_outcome fs)
    as [[_ [e ->]] | (f & content & Hfile & _ & _ &
                      [[_ ->] | [(n & _ & _ & ->) | (n & Hn & _ & ->)]])];
    cbn [fst snd files stdout exit_status].
  - split; [by right|]. split; [split; intros [=]|]. split; [intros [=] | done].
  - split; [by right|].
    split; [split; [intros [=] | intros H; destruct (Hne _ H eq_refl)]|].
    split; [intros H; destruct (Hne _ H eq_refl) | done].
  - split; [by right|]. split; [split; intros [=]|]. split; [intros [=] | done].
  - split; [by left|]. split; [done|]. split; [|done].
    intros _. eexists. split; [apply lookup_insert_eq|].
    apply block_in_new_content, Hn.
Qed.

Lemma update_doc_success_witness :
  ∃ out, files (run update_doc.main (single_file update_doc.FILE_PATH CHANGELOG)).2
           !! update_doc.FILE_PATH = Some (File (Some out) true true)
         ∧ occurs update_doc.PHASE_72_DOC out.
Proof.
  apply (proj1 (proj2 (proj2
           (update_doc_success_iff_written (single_file update_doc.FILE_PATH CHANGELOG))))).
  vm_compute. reflexivity.
Defined.

(** ** Exit status of [apply-fixes.py] *)



(** ** What [apply-fixes.py] leaves in the file *)

(** X4. After a run of [apply-fixes.py] that reaches its end, the file holds a
    text in which none of the three texts the script looks for occurs any
    more. *)
Theorem apply_fixes_leaves_no_anchor fs w :
  run apply_fixes.main fs = (Ret (), w) →
  ∃ out, files w !! apply_fixes.FILE_PATH = Some (File (Some out) true true)
         ∧ ¬ occurs apply_fixes.FIX3_OLD out
         ∧ ¬ occurs apply_fixes.FIX1_OLD out
         ∧ ¬ occurs apply_fixes.FIX2_TEXT out.
Proof.
  destruct (apply_fixes_outcome fs)
    as [[_ (e & _ & ->)] | (f & content & _ & _ & _ & [[_ ->] | [_ ->]])];
    intros [= <-].
  exists (apply_fixes.patch content). split; [apply lookup_insert_eq|].
  apply patch_consumes.
Qed.

Lemma apply_fixes_leaves_no_anchor_witness :
  ∃ out, files (run apply_fixes.main (single_file apply_fixes.FILE_PATH MODULE_TS)).2
           !! apply_fixes.FILE_PATH = Some (File (Some out) true true)
         ∧ ¬ occurs apply_fixes.FIX3_OLD out
         ∧ ¬ occurs apply_fixes.FIX1_OLD out
         ∧ ¬ occurs apply_fixes.FIX2_TEXT out.
Proof.
  apply (apply_fixes_leaves_no_anchor (single_file apply_fixes.FILE_PATH MODULE_TS)).
  vm_compute. reflexivity.
Defined.

Lemma patch_fixed_point content :
  apply_fixes.patch content = content
  ↔ ¬ occurs apply_fixes.FIX3_OLD content ∧ ¬ occurs apply_fixes.FIX1_OLD content
    ∧ ¬ occurs apply_fixes.FIX2_TEXT content.
Proof.
  split.
  - intros Heq. pose proof (patch_consumes content) as H. by rewrite Heq in H.
  - intros (H3 & H1 & H2). unfold apply_fixes.patch.
    rewrite (str_replace_absent content apply_fixes.FIX3_OLD apply_fixes.FIX3_NEW H3).
    rewrite (str_replace_absent content apply_fixes.FIX1_OLD apply_fixes.FIX1_NEW H1).
    exact (str_replace_absent content apply_fixes.FIX2_TEXT apply_fixes.FIX2_REPL H2).
Qed.

(** X5. The text [apply-fixes.py] writes is the text it read exactly when none
    of the three texts it looks for occurs in the text read. *)
Theorem apply_fixes_changes_iff_anchor fs f content :
  fs !! apply_fixes.FILE_PATH = Some f → readable f = true → writable f = true →
  text f = Some content →
  files (run apply_fixes.main fs).2 !! apply_fixes.FILE_PATH
  = Some (File (Some content) true true)
  ↔ ¬ occurs apply_fixes.FIX3_OLD content ∧ ¬ occurs apply_fixes.FIX1_OLD content
    ∧ ¬ occurs apply_fixes.FIX2_TEXT content.
Proof.
  intros Hfile Hr Hw Ht. rewrite (apply_fixes_run fs f content Hfile Hr Ht Hw).
  cbn [snd files]. rewrite lookup_insert_eq, <- patch_fixed_point.
  split; [|by intros ->].
  intros H. apply (f_equal (λ o, o ≫= text)) in H. cbn [mbind option_bind text] in H.
  by apply (inj Some).
Qed.

Lemma apply_fixes_changes_witness :
  files (run apply_fixes.main (single_file apply_fixes.FILE_PATH NOTES)).2
    !! apply_fixes.FILE_PATH = Some (File (Some NOTES) true true)
  ↔ ¬ occurs apply_fixes.FIX3_OLD NOTES ∧ ¬ occurs apply_fixes.FIX1_OLD NOTES
    ∧ ¬ occurs apply_fixes.FIX2_TEXT NOTES.
Proof.
  apply (apply_fixes_changes_iff_anchor _ (File (Some NOTES) true true)); reflexivity.
Defined.

(** ** The pattern of fix #2 *)

(** X6. For every text, the [re.sub] call of fix #2 returns a text and does
    not raise, and what it returns is the text with the occurrences of
    [tokenExchangeUsed: !!this.tokenExchangeService] replaced as
    [str.replace] replaces them: the escaped dot matches a dot only. *)
Theorem fix2_is_a_literal_replacement content :
  re.sub apply_fixes.FIX2_PATTERN apply_fixes.FIX2_REPL content
  = re.Ok (str_replace content apply_fixes.FIX2_TEXT apply_fixes.FIX2_REPL)
  ∧ (¬ occurs apply_fixes.FIX2_TEXT content →
     re.sub apply_fixes.FIX2_PATTERN apply_fixes.FIX2_REPL content = re.Ok content).
Proof.
  split; [apply fix2_sub|]. intros Habs. rewrite fix2_sub.
  by rewrite (str_replace_absent content apply_fixes.FIX2_TEXT apply_fixes.FIX2_REPL Habs).
Qed.

Lemma fix2_is_a_literal_replacement_witness :
  re.sub apply_fixes.FIX2_PATTERN apply_fixes.FIX2_REPL
    (py "tokenExchangeUsed: !!thisXtokenExchangeService")
  = re.Ok (py "tokenExchangeUsed: !!thisXtokenExchangeService").
Proof.
  apply (proj2 (fix2_is_a_literal_replacement
                  (py "tokenExchangeUsed: !!thisXtokenExchangeService"))).
  apply str_find_absent. vm_compute. reflexivity.
Defined.

(** ** [content.find] and the slices around the anchor *)

(** X7. When [s.find(sub)] is not [-1] it is an offset at which [sub] fits in
    [s]; the slice before it, [sub], and the slice behind [sub] make up
    [s]; and a non-empty [sub] does not occur in the slice before it. *)
Theorem find_splits_text s sub :
  str_find s sub ≠ -1 →
  0 ≤ str_find s sub ≤ len s - len sub
  ∧ s = slice_to s (str_find s sub) ++ sub ++ slice_from s (str_find s sub + len sub)
  ∧ (sub ≠ [] → ¬ occurs sub (slice_to s (str_find s sub))).
Proof.
  intros Hne.
  destruct (find_from_found sub s 0 _ eq_refl Hne) as (n & Hn & Hfirst); [lia|].
  fold (str_find s sub) in Hn. rewrite Hn, Z.add_0_l.
  pose proof (occurs_at_length _ _ _ (proj1 Hfirst)) as Hlen.
  unfold len. rewrite <- Nat2Z.inj_add, slice_to_nat, slice_from_nat by lia.
  split; [lia|]. split; [by apply occurs_at_decompose, Hfirst|].
  intros Hsub. by apply first_at_take.
Qed.

Lemma find_splits_text_witness :
  0 ≤ str_find CHANGELOG update_doc.ANCHOR ≤ len CHANGELOG - len update_doc.ANCHOR
  ∧ CHANGELOG
    = slice_to CHANGELOG (str_find CHANGELOG update_doc.ANCHOR) ++ update_doc.ANCHOR
        ++ slice_from CHANGELOG (str_find CHANGELOG update_doc.ANCHOR + len update_doc.ANCHOR)
  ∧ (update_doc.ANCHOR ≠ [] →
     ¬ occurs update_doc.ANCHOR (slice_to CHANGELOG (str_find CHANGELOG update_doc.ANCHOR))).
Proof.
  apply (find_splits_text CHANGELOG update_doc.ANCHOR).
  vm_compute. intros H. discriminate H.
Defined.

(** ** Occurrences before and behind a replaced text *)

Lemma border_free_spec a l l' m :
  border_free a = true → a = l ++ l' → a = l' ++ m → l ≠ [] → l' ≠ [] → False.
Proof.
  unfold border_free. rewrite forallb_forall. intros Hk Hl Hm Hne Hne'.
  specialize (Hk (length l')). rewrite in_seq in Hk.
  apply negb_true_iff, bool_decide_eq_false in Hk.
  - apply Hk. rewrite Hm at 1. rewrite take_app_length.
    rewrite Hl, length_app.
    replace (length l + length l' - length l')%nat with (length l) by lia.
    by rewrite drop_app_length.
  - rewrite Hl, length_app. destruct l, l'; simpl in *; try done; lia.
Qed.

(** Where an occurrence of [a] lies in a text that holds [new], when the
    two do not overlap: in the part before [new], or in the part behind. *)
Lemma occurs_around_split a new u v x y :
  overlap_free a new = true → x ++ a ++ y = u ++ new ++ v →
  (∃ l, u = x ++ a ++ l) ∨ (∃ l, x = u ++ new ++ l ∧ v = l ++ a ++ y).
Proof.
  intros (Hi & Hii & Hiii & Hiv)%overlap_free_spec Heq.
  apply app_eq_app in Heq as [l [[-> Heq] | [-> Heq]]].
  - apply app_eq_app in Heq as [l' [[-> Heq] | [-> ->]]].
    + apply app_eq_app in Heq as [m [[-> ->] | [-> ->]]].
      * destruct l' as [|c l'].
        { right. exists []. by rewrite ?app_nil_r. }
        destruct m as [|e m]; [destruct Hi; exists l, []; by rewrite ?app_nil_r|].
        destruct l as [|d l]; [destruct Hii; by exists [], (e :: m)|].
        destruct (Hiv (d :: l) (c :: l') (e :: m)); done.
      * destruct Hi. by exists l, m.
    + right. by exists l'.
  - apply app_eq_app in Heq as [l' [[-> Heq] | [-> ->]]].
    + apply app_eq_app in Heq as [m [[-> ->] | [-> ->]]].
      * destruct l' as [|c l'].
        { left. exists []. by rewrite ?app_nil_r. }
        destruct l as [|d l]; [destruct Hi; by exists [], m|].
        destruct m as [|e m]; [destruct Hii; exists (d :: l), []; by rewrite ?app_nil_r|].
        destruct (Hiii (d :: l) (c :: l') (e :: m)); done.
      * destruct Hii. by exists l, m.
    + left. by exists l'.
Qed.

Lemma occurs_at_app_inv sub s n :
  occurs_at sub s n ↔ ∃ x y, s = x ++ sub ++ y ∧ length x = n.
Proof.
  split; [apply occurs_at_inv|]. intros (x & y & -> & <-). apply occurs_at_app.
Qed.

(** An occurrence of a border-free [a] that starts behind the start of
    another one lies wholly behind it. *)
Lemma occurs_behind a pre post x y :
  border_free a = true → a ≠ [] → x ++ a ++ y = pre ++ a ++ post →
  (length pre < length x)%nat → ∃ l, x = pre ++ a ++ l ∧ post = l ++ a ++ y.
Proof.
  intros Hb Hne Heq Hlen.
  apply app_eq_app in Heq as [l [[-> Heq] | [-> Heq]]].
  - apply app_eq_app in Heq as [l' [[Ha Heq] | [-> ->]]].
    + destruct l as [|d l]; [rewrite length_app in Hlen; simpl in Hlen; lia|].
      destruct l' as [|c l'].
      { exists []. rewrite app_nil_r in Ha. rewrite <- Ha. by rewrite app_nil_r. }
      apply app_eq_app in Heq as [m [[Ha' _] | [Hl _]]].
      * destruct (border_free_spec a (d :: l) (c :: l') m); done.
      * apply (f_equal length) in Ha, Hl. rewrite !length_app in *.
        simpl in *. lia.
    + exists l'. by rewrite <- ?app_assoc.
  - rewrite length_app in Hlen. lia.
Qed.

(** ** One anchor for each run of [update-doc.py] *)

Lemma anchor_border_free : border_free update_doc.ANCHOR = true.
Proof. vm_compute. reflexivity. Qed.

Lemma block_lengths :
  length (update_doc.ANCHOR_HEAD ++ update_doc.PHASE_72_DOC ++ update_doc.ANCHOR_TAIL)
  = (length update_doc.ANCHOR + length update_doc.PHASE_72_DOC)%nat.
Proof. vm_compute. reflexivity. Qed.

(** X8. The insertion uses up the first occurrence of the anchor and no other:
    the anchor occurs in the text written exactly at the offsets at which
    it occurred in the text read behind its first occurrence, moved on by
    the length of the block. A text with [k] anchors takes [k] runs. *)
Theorem insertion_consumes_first_anchor content n m :
  first_at update_doc.ANCHOR content n →
  occurs_at update_doc.ANCHOR (update_doc.new_content content (Z.of_nat n)) m
  ↔ ∃ k, occurs_at update_doc.ANCHOR content k ∧ k ≠ n
         ∧ m = (k + length update_doc.PHASE_72_DOC)%nat.
Proof.
  intros Hn. rewrite new_content_at by apply Hn. rewrite app_regroup.
  pose proof anchor_overlap_free as Hfree. pose proof anchor_border_free as Hb.
  pose proof block_lengths as Hlen.
  destruct (overlap_free_nonempty _ _ Hfree) as [Hne _].
  assert (0 < length update_doc.ANCHOR)%nat as Hpos by (vm_compute; lia).
  revert Hfree Hb Hlen Hne Hpos Hn.
  generalize (update_doc.ANCHOR_HEAD ++ update_doc.PHASE_72_DOC ++ update_doc.ANCHOR_TAIL).
  generalize update_doc.PHASE_72_DOC. generalize update_doc.ANCHOR.
  intros a block new Hfree Hb Hlen Hne Hpos Hn.
  pose proof (first_at_take a content n Hne Hn) as Hpre.
  destruct (occurs_at_inv _ _ _ (proj1 Hn)) as (pre & post & Hc & Hl).
  assert (take n content = pre) as Htake by (by rewrite Hc, <- Hl, take_app_length).
  assert (drop (n + length a) content = post) as Hdrop
    by (by rewrite Hc, <- Hl, drop_two).
  rewrite Htake, Hdrop in *. clear Htake Hdrop. split.
  - intros (x & y & Heq & Hx)%occurs_at_app_inv. symmetry in Heq.
    apply (occurs_around_split _ _ _ _ _ _ Hfree) in Heq as [[l ->] | (l & -> & ->)].
    + destruct Hpre. by exists x, l.
    + exists (length (pre ++ a ++ l)). split; [|split].
      * rewrite Hc. replace (pre ++ a ++ l ++ a ++ y) with ((pre ++ a ++ l) ++ a ++ y) by (by rewrite <- !app_assoc).
        apply occurs_at_app.
      * rewrite !length_app. lia.
      * rewrite <- Hx, !length_app, Hlen. lia.
  - intros (k & (x & y & Heq & Hx)%occurs_at_app_inv & Hk & ->).
    assert (n < k)%nat as Hlt.
    { destruct (decide (n < k)%nat) as [|Hge]; [done|].
      destruct (proj2 Hn k); [lia|]. rewrite Heq, <- Hx. apply occurs_at_app. }
    rewrite Hc in Heq. symmetry in Heq.
    apply (occurs_behind a pre post _ _ Hb Hne) in Heq as (l & -> & ->); [|lia].
    rewrite <- Hx.
    replace (length (pre ++ a ++ l) + length block)%nat
      with (length ((pre ++ new) ++ l)) by (rewrite !length_app, Hlen; lia).
    replace (pre ++ new ++ l ++ a ++ y) with (((pre ++ new) ++ l) ++ a ++ y) by (by rewrite <- !app_assoc).
    apply occurs_at_app.
Qed.

Lemma insertion_consumes_witness :
  occurs_at update_doc.ANCHOR (update_doc.new_content TWO_ANCHORS (Z.of_nat 17))
    (111 + length update_doc.PHASE_72_DOC)
  ↔ ∃ k, occurs_at update_doc.ANCHOR TWO_ANCHORS k ∧ k ≠ 17%nat
         ∧ (111 + length update_doc.PHASE_72_DOC
            = k + length update_doc.PHASE_72_DOC)%nat.
Proof.
  apply (insertion_consumes_first_anchor TWO_ANCHORS 17).
  apply str_find_first. vm_compute. reflexivity.
Defined.

(** ** The three fixes do not interfere *)

(** Replacing [old] keeps the occurrences of a text that [old] does not
    overlap. *)
Lemma str_replace_keeps_present a old new s :
  old ≠ [] → overlap_free a old = true →
  occurs a s → occurs a (str_replace s old new).
Proof.
  intros Hold Hfree.
  induction s as [s IH] using (induction_ltof1 _ (@length char)). unfold ltof in IH.
  intros Ha. destruct (decide (occurs old s)) as [Hocc|Hno].
  - destruct (first_at_exists _ _ Hocc) as [n Hn].
    rewrite (str_replace_first _ _ _ n Hold Hn).
    rewrite (occurs_at_decompose _ _ _ (proj1 Hn)) in Ha.
    apply (occurs_around _ _ _ _ Hfree) in Ha as [Hl|Hr].
    + by apply occurs_app_l.
    + apply occurs_app_r, occurs_app_r. apply IH; [|done].
      rewrite length_drop. pose proof (occurs_at_length _ _ _ (proj1 Hn)).
      destruct old; [done | simpl in *; lia].
  - by rewrite (str_replace_absent _ _ _ Hno).
Qed.

(** X9. A later fix finds its anchor exactly when the anchor occurs in the
    text as read: the replacements made before it neither create nor
    destroy an occurrence of it. *)
Theorem fixes_find_their_anchors content :
  (occurs apply_fixes.FIX1_OLD
     (str_replace content apply_fixes.FIX3_OLD apply_fixes.FIX3_NEW)
   ↔ occurs apply_fixes.FIX1_OLD content)
  ∧ (occurs apply_fixes.FIX2_TEXT
       (str_replace (str_replace content apply_fixes.FIX3_OLD apply_fixes.FIX3_NEW)
          apply_fixes.FIX1_OLD apply_fixes.FIX1_NEW)
     ↔ occurs apply_fixes.FIX2_TEXT content).
Proof.
  assert (overlap_free apply_fixes.FIX1_OLD apply_fixes.FIX3_OLD = true) as H13
    by (vm_compute; reflexivity).
  assert (overlap_free apply_fixes.FIX1_OLD apply_fixes.FIX3_NEW = true) as H13'
    by (vm_compute; reflexivity).
  assert (overlap_free apply_fixes.FIX2_TEXT apply_fixes.FIX3_OLD = true) as H23
    by (vm_compute; reflexivity).
  assert (overlap_free apply_fixes.FIX2_TEXT apply_fixes.FIX3_NEW = true) as H23'
    by (vm_compute; reflexivity).
  assert (overlap_free apply_fixes.FIX2_TEXT apply_fixes.FIX1_OLD = true) as H21
    by (vm_compute; reflexivity).
  assert (overlap_free apply_fixes.FIX2_TEXT apply_fixes.FIX1_NEW = true) as H21'
    by (vm_compute; reflexivity).
  destruct (overlap_free_nonempty _ _ H13) as [Hne1 Hne3].
  revert H13 H13' H23 H23' H21 H21' Hne1 Hne3.
  generalize apply_fixes.FIX3_OLD apply_fixes.FIX3_NEW apply_fixes.FIX1_OLD
             apply_fixes.FIX1_NEW apply_fixes.FIX2_TEXT.
  intros a3 r3 a1 r1 a2 H13 H13' H23 H23' H21 H21' Hne1 Hne3.
  split; split.
  - intros H. destruct (decide (occurs a1 content)) as [|Hno]; [done|].
    by destruct (str_replace_keeps_absent a1 a3 r3 content Hne3 H13' Hno).
  - by apply str_replace_keeps_present.
  - intros H. destruct (decide (occurs a2 content)) as [|Hno]; [done|].
    destruct (str_replace_keeps_absent a2 a1 r1 _ Hne1 H21'
                (str_replace_keeps_absent a2 a3 r3 content Hne3 H23' Hno) H).
  - intros H. by apply str_replace_keeps_present, str_replace_keeps_present.
Qed.

(** ** The order of the fixes *)

Lemma first_at_app_l a x u v n :
  overlap_free a x = true → first_at a u n → first_at a (u ++ x ++ v) n.
Proof.
  intros Hfree [Hn Hmin]. split.
  - apply occurs_at_app_inv in Hn as (p & q & -> & <-).
    rewrite <- !app_assoc. apply occurs_at_app.
  - intros m Hm (p & q & Heq & Hp)%occurs_at_app_inv. symmetry in Heq.
    apply (occurs_around_split _ _ _ _ _ _ Hfree) in Heq as [[l ->] | (l & -> & _)].
    + apply (Hmin m Hm). rewrite <- Hp. apply occurs_at_app.
    + apply occurs_at_length in Hn. rewrite !length_app in Hp. lia.
Qed.

Lemma first_at_app_r a x u v n :
  overlap_free a x = true → ¬ occurs a u → first_at a v n →
  first_at a (u ++ x ++ v) (length u + length x + n).
Proof.
  intros Hfree Hu [Hn Hmin]. split.
  - apply occurs_at_app_inv in Hn as (p & q & -> & <-).
    replace (u ++ x ++ p ++ a ++ q) with ((u ++ x ++ p) ++ a ++ q)
      by (by rewrite <- !app_assoc).
    replace (length u + length x + length p)%nat with (length (u ++ x ++ p))
      by (rewrite !length_app; lia).
    apply occurs_at_app.
  - intros m Hm (p & q & Heq & Hp)%occurs_at_app_inv. symmetry in Heq.
    apply (occurs_around_split _ _ _ _ _ _ Hfree) in Heq as [[l ->] | (l & -> & ->)].
    + destruct Hu. by exists p, l.
    + apply (Hmin (length l)); [rewrite !length_app in Hp; lia|]. apply occurs_at_app.
Qed.

(** [str.replace] works on the two sides of a text that the anchor does
    not overlap as it works on each side alone. *)
Lemma str_replace_around a r x u v :
  a ≠ [] → overlap_free a x = true →
  str_replace (u ++ x ++ v) a r = str_replace u a r ++ x ++ str_replace v a r.
Proof.
  intros Hne Hfree.
  induction u as [u IH] using (induction_ltof1 _ (@length char)). unfold ltof in IH.
  destruct (decide (occurs a u)) as [[n Hn]%first_at_exists|Hu].
  - pose proof (occurs_at_length _ _ _ (proj1 Hn)) as Hlen.
    rewrite (str_replace_first _ _ _ n Hne (first_at_app_l a x u v n Hfree Hn)).
    rewrite (str_replace_first u _ _ n Hne Hn).
    rewrite take_app_le, drop_app_le by lia.
    rewrite IH; [by rewrite <- !app_assoc|].
    rewrite length_drop. destruct a; [done | simpl in *; lia].
  - rewrite (str_replace_absent u _ _ Hu).
    destruct (decide (occurs a v)) as [[n Hn]%first_at_exists|Hv].
    + rewrite (str_replace_first _ _ _ _ Hne (first_at_app_r a x u v n Hfree Hu Hn)).
      rewrite (str_replace_first v _ _ n Hne Hn).
      replace (length u + length x + n)%nat with (length (u ++ x) + n)%nat
        by (rewrite length_app; lia).
      rewrite (app_assoc u x v), take_app_add, <- Nat.add_assoc, drop_app_add.
      by rewrite <- !app_assoc.
    + rewrite (str_replace_absent v _ _ Hv). apply str_replace_absent.
      by intros [?|?]%occurs_around.
Qed.

Lemma first_at_behind_free a u v :
  a ≠ [] → border_free a = true → ¬ occurs a u → first_at a (u ++ a ++ v) (length u).
Proof.
  intros Hne Hb Hu. split; [apply occurs_at_app|].
  intros m Hm (p & q & Heq & Hp)%occurs_at_app_inv.
  apply app_eq_app in Heq as [l [[-> Heq] | [Hp' _]]].
  - apply app_eq_app in Heq as [l' [[Ha Heq] | [-> _]]].
    + destruct l as [|d l]; [rewrite length_app in Hm; simpl in Hm; lia|].
      destruct l' as [|c l'].
      { destruct Hu. exists p, []. rewrite app_nil_r in Ha. by rewrite <- Ha, app_nil_r. }
      apply app_eq_app in Heq as [k [[Ha' _] | [Hl _]]].
      * destruct (border_free_spec a (d :: l) (c :: l') k); done.
      * apply (f_equal length) in Ha, Hl. rewrite !length_app in *. simpl in *. lia.
    + destruct Hu. by exists p, l'.
  - apply (f_equal length) in Hp'. rewrite length_app in Hp'. lia.
Qed.

Lemma independent_spec op1 op2 :
  independent op1 op2 = true →
  border_free op1.1 = true ∧ border_free op2.1 = true
  ∧ overlap_free op1.1 op2.1 = true ∧ overlap_free op2.1 op1.1 = true
  ∧ overlap_free op1.1 op2.2 = true ∧ overlap_free op2.1 op1.2 = true.
Proof. unfold independent. rewrite !andb_true_iff. tauto. Qed.

Lemma independent_sym op1 op2 : independent op1 op2 = true → independent op2 op1 = true.
Proof.
  intros (? & ? & ? & ? & ? & ?)%independent_spec.
  unfold independent. rewrite !andb_true_iff. tauto.
Qed.

(** One step of the exchange of two replacements: where the first anchor
    occurs, both orders replace its first occurrence and go on behind. *)
Lemma str_replace_commute_step a1 r1 a2 r2 s :
  independent (a1, r1) (a2, r2) = true → occurs a1 s →
  (∀ t, (length t < length s)%nat →
        str_replace (str_replace t a1 r1) a2 r2 = str_replace (str_replace t a2 r2) a1 r1) →
  str_replace (str_replace s a1 r1) a2 r2 = str_replace (str_replace s a2 r2) a1 r1.
Proof.
  intros (Hb1 & Hb2 & H12 & H21 & H1r & H2r)%independent_spec Hocc IH. simpl in *.
  destruct (overlap_free_nonempty _ _ H12) as [Hne1 Hne2].
  destruct (first_at_exists _ _ Hocc) as [n Hn].
  pose proof (occurs_at_length _ _ _ (proj1 Hn)) as Hlen.
  pose proof (first_at_take a1 s n Hne1 Hn) as Hpre.
  rewrite (str_replace_first s a1 r1 n Hne1 Hn).
  rewrite (str_replace_around a2 r2 r1 _ _ Hne2 H2r).
  rewrite (occurs_at_decompose _ _ _ (proj1 Hn)) at 3.
  rewrite (str_replace_around a2 r2 a1 _ _ Hne2 H21).
  pose proof (str_replace_keeps_absent a1 a2 r2 _ Hne2 H1r Hpre) as Hpre'.
  rewrite (str_replace_first _ a1 r1 _ Hne1
             (first_at_behind_free a1 _ _ Hne1 Hb1 Hpre')).
  rewrite take_app_length, drop_two.
  rewrite IH; [done|]. rewrite length_drop.
  destruct a1; [done | simpl in *; lia].
Qed.

(** Independent replacements can be made in either order. *)
Lemma str_replace_commute a1 r1 a2 r2 s :
  independent (a1, r1) (a2, r2) = true →
  str_replace (str_replace s a1 r1) a2 r2 = str_replace (str_replace s a2 r2) a1 r1.
Proof.
  intros Hind.
  induction s as [s IH] using (induction_ltof1 _ (@length char)). unfold ltof in IH.
  destruct (decide (occurs a1 s)) as [H1|H1].
  { by apply str_replace_commute_step. }
  destruct (decide (occurs a2 s)) as [H2|H2].
  { symmetry. apply str_replace_commute_step; [by apply independent_sym | done |].
    intros t Ht. symmetry. by apply IH. }
  rewrite (str_replace_absent s a1 r1 H1), (str_replace_absent s a2 r2 H2).
  by rewrite (str_replace_absent s a1 r1 H1).
Qed.

Lemma apply_ops_permutation ops ops' content :
  (∀ op1 op2, op1 ∈ ops → op2 ∈ ops → op1 = op2 ∨ independent op1 op2 = true) →
  ops ≡ₚ ops' → apply_ops ops content = apply_ops ops' content.
Proof.
  intros Hind Hperm. revert content Hind.
  induction Hperm as [|op ops ops' Hperm IH|op1 op2 ops|ops ops' ops'' H1 IH1 H2 IH2];
    intros content Hind.
  - done.
  - unfold apply_ops in *. simpl. apply IH.
    intros op1 op2 ? ?. apply Hind; by constructor.
  - unfold apply_ops. simpl. f_equal.
    destruct (Hind op2 op1) as [->|Hi];
      [apply list_elem_of_here | apply list_elem_of_further, list_elem_of_here | done |].
    destruct op1 as [a1 r1], op2 as [a2 r2]. by apply str_replace_commute.
  - rewrite IH1 by done. apply IH2.
    intros op1 op2 Hop1 Hop2. apply Hind; by rewrite H1.
Qed.

Lemma all_ops_independent op1 op2 :
  op1 ∈ ALL_OPS → op2 ∈ ALL_OPS → op1 = op2 ∨ independent op1 op2 = true.
Proof.
  unfold ALL_OPS. rewrite !elem_of_cons, !elem_of_nil.
  intros [-> | [-> | [-> | []]]] [-> | [-> | [-> | []]]].
  1, 5, 9: by left.
  all: right; vm_compute; reflexivity.
Qed.

Lemma patch_as_ops content : apply_fixes.patch content = apply_ops ALL_OPS content.
Proof.
  unfold apply_fixes.patch, apply_ops, ALL_OPS. cbn [foldl fold_left fst snd].
  reflexivity.
Qed.

(** X10. The three fixes can be made in any order: whatever the order, the
    text obtained is the text that [apply-fixes.py] writes. *)
Theorem fixes_order_irrelevant ops content :
  ops ≡ₚ ALL_OPS → apply_ops ops content = apply_fixes.patch content.
Proof.
  intros Hperm. rewrite patch_as_ops.
  symmetry. apply apply_ops_permutation; [apply all_ops_independent | done].
Qed.

Lemma fixes_order_irrelevant_witness :
  apply_ops [(apply_fixes.FIX2_TEXT, apply_fixes.FIX2_REPL);
             (apply_fixes.FIX1_OLD, apply_fixes.FIX1_NEW);
             (apply_fixes.FIX3_OLD, apply_fixes.FIX3_NEW)] MODULE_TS
  = apply_fixes.patch MODULE_TS.
Proof.
  apply (fixes_order_irrelevant _ MODULE_TS).
  change (reverse ALL_OPS ≡ₚ ALL_OPS). apply reverse_Permutation.
Defined.

(** ** A pattern without a match *)

(** X11. When the pattern compiles, is not empty, and no text it matches
    occurs in the string, [re.sub] returns the string unchanged. *)
Theorem sub_without_match pattern repl string atoms :
  re.parse pattern = re.Ok atoms → atoms ≠ [] → re.BACKSLASH ∉ repl →
  (∀ m, matches atoms m → ¬ occurs m string) →
  re.sub pattern repl string = re.Ok string.
Proof.
  intros Hparse Hne Hrepl Hno. unfold re.sub, re.parse_template. rewrite Hparse.
  rewrite bool_decide_eq_false_2 by done. f_equal.
  destruct atoms as [|a atoms]; [done|]. unfold re.sub_compiled.
  apply scan_no_hit. intros n [Hn (m & Hm & post & Hpost)%match_here_matches].
  apply (Hno m Hm). exists (take n string), post.
  by rewrite <- Hpost, take_drop.
Qed.

Lemma sub_without_match_witness :
  re.sub (py "f.o") (py "bar") (py "f
o") = re.Ok (py "f
o").
Proof.
  apply (sub_without_match _ _ _ [re.Lit 102%N; re.AnyChar; re.Lit 111%N]).
  - reflexivity.
  - discriminate.
  - apply (bool_decide_eq_false_1 _). vm_compute. reflexivity.
  - intros m Hm. apply Forall2_length in Hm as Hlen.
    destruct m as [|c1 [|c2 [|c3 [|]]]]; try discriminate Hlen.
    inversion Hm as [|? ? ? ? H1 Hm']; subst. inversion Hm' as [|? ? ? ? H2 Hm'']; subst.
    inversion Hm'' as [|? ? ? ? H3 _]; subst.
    apply bool_decide_eq_true in H1, H3. subst.
    intros (pre & post & Heq). apply (f_equal length) in Heq as Hl.
    rewrite !length_app in Hl. simpl in Hl.
    destruct pre as [|? [|]]; simpl in Hl; try lia. destruct post; simpl in Hl; try lia.
    injection Heq as <-. by vm_compute in H2.
Defined.

(** ** Files shorter than the anchor *)

Lemma occurs_length sub s : occurs sub s → (length sub ≤ length s)%nat.
Proof. intros (pre & post & ->). rewrite !length_app. lia. Qed.

(** X12. A file whose text is shorter than the anchor, an empty file among
    them, is never patched by [update-doc.py]: the run prints the error
    line, leaves with status 1 and writes nothing. *)
Theorem short_file_is_not_patched fs f content :
  fs !! update_doc.FILE_PATH = Some f → readable f = true → text f = Some content →
  (length content < length update_doc.ANCHOR)%nat →
  run update_doc.main fs = (Exit 1, World fs [update_doc.ERROR]).
Proof.
  intros Hfile Hr Ht Hlen. apply (update_doc_run_absent fs f content Hfile Hr Ht).
  intros Hocc%occurs_length.
  exact (Nat.lt_irrefl _ (Nat.lt_le_trans _ _ _ Hlen Hocc)).
Qed.

Lemma short_file_is_not_patched_witness :
  run update_doc.main (single_file update_doc.FILE_PATH [])
  = (Exit 1, World (single_file update_doc.FILE_PATH []) [update_doc.ERROR]).
Proof.
  apply (short_file_is_not_patched _ (File (Some []) true true) []).
  - reflexivity.
  - reflexivity.
  - reflexivity.
  - vm_compute. lia.
Defined.

(** ** The literals of the scripts *)

(** The lengths of the literals, as [len] gives them for the source. *)
Lemma literal_lengths :
  length apply_fixes.FIX3_OLD = 115%nat ∧ length apply_fixes.FIX3_NEW = 194%nat
  ∧ length apply_fixes.FIX1_OLD = 289%nat ∧ length apply_fixes.FIX1_NEW = 641%nat
  ∧ length apply_fixes.FIX2_PATTERN = 47%nat ∧ length apply_fixes.FIX2_REPL = 45%nat
  ∧ length update_doc.PHASE_72_DOC = 2014%nat ∧ length update_doc.ANCHOR = 80%nat
  ∧ length update_doc.ANCHOR_HEAD = 63%nat ∧ length update_doc.ANCHOR_TAIL = 17%nat.
Proof. vm_compute. repeat split. Qed.
